(** * PromQL parse client: AST builder, duration parser and explanations

    A shallow embedding of [src/services/parseClient.ts].  The lezer
    syntax tree the client walks is an input of the model; JavaScript
    strings are sequences of code units, written here as [string].
    JavaScript numbers are doubles: the ones the client computes with are
    integers or infinite, written here as [number], with the rounding of
    the arithmetic, of [parseInt] and of the division, and the way a
    template literal prints them, written out. *)

From Stdlib Require Import ZArith List String Ascii Lia Bool DecimalString DecimalPos.
From stdpp Require Import base strings gmap.
Import ListNotations.
Open Scope string_scope.
Open Scope list_scope.
Set Warnings "-register-all".

(** ** JavaScript string and array primitives used by the client *)

(** [String.prototype.slice(start, end)] on integer arguments: negative
    indices count from the end, both are clamped to the string. *)
Definition js_slice (s : string) (start stop : Z) : string :=
  let len := Z.of_nat (String.length s) in
  let from := if (start <? 0)%Z then Z.max (len + start) 0 else Z.min start len in
  let to := if (stop <? 0)%Z then Z.max (len + stop) 0 else Z.min stop len in
  substring (Z.to_nat from) (Z.to_nat (Z.max (to - from) 0)) s.

(** [Array.prototype.join(sep)]: the separator goes before every element
    but the first. *)
Definition js_join (sep : string) (l : list string) : string :=
  snd (fold_left
         (fun (st : nat * string) (x : string) =>
            let (k, R) := st in
            (S k, (if Nat.eqb k 0 then R else R +:+ sep) +:+ x))
         l (0, "")).

(** [a || d] on an optional string: [undefined] and the empty string are
    falsy. *)
Definition or_string (a : option string) (d : string) : string :=
  match a with
  | Some (String c s) => String c s
  | _ => d
  end.

(** A template-literal hole filled with an optional string. *)
Definition show_string (a : option string) : string :=
  match a with
  | Some s => s
  | None => "undefined"
  end.

(** ** JavaScript numbers

    The numbers of the client that are not [NaN]: an integer that is a
    double, or one of the two infinities. *)
Inductive number : Type :=
| Num (z : Z)
| Infinity
| NegInfinity.

Coercion Num : Z >-> number.
Bind Scope Z_scope with number.

(** The result of an arithmetic operation, which may be [NaN]. *)
Inductive numeric : Type :=
| Value (n : number)
| NaN.

(** The integer nearest to [a / b], the even one of two that are equally
    near ([0 <= a], [0 < b]). *)
Definition round_half_even (a b : Z) : Z :=
  let q := (a / b)%Z in
  let r := (a mod b)%Z in
  if (2 * r <? b)%Z then q
  else if (b <? 2 * r)%Z then (q + 1)%Z
  else if Z.even q then q else (q + 1)%Z.

(** A non-negative integer rounded to 53 significant bits. *)
Definition round53 (z : Z) : Z :=
  if (z <? 2 ^ 53)%Z then z
  else let ulp := (2 ^ (Z.log2 z - 52))%Z in (round_half_even z ulp * ulp)%Z.

(** [Number.MAX_VALUE] *)
Definition maxDouble : Z := ((2 ^ 53 - 1) * 2 ^ 971)%Z.

(** The double nearest to an integer. *)
Definition fl (z : Z) : number :=
  let m := round53 (Z.abs z) in
  if (maxDouble <? m)%Z then (if (z <? 0)%Z then NegInfinity else Infinity)
  else Num (Z.sgn z * m).

(** [a * b] *)
Definition js_mul (a b : numeric) : numeric :=
  match a, b with
  | Value (Num p), Value (Num q) => Value (fl (p * q))
  | Value (Num p), Value Infinity | Value Infinity, Value (Num p) =>
      if (p =? 0)%Z then NaN else Value (if (0 <? p)%Z then Infinity else NegInfinity)
  | Value (Num p), Value NegInfinity | Value NegInfinity, Value (Num p) =>
      if (p =? 0)%Z then NaN else Value (if (0 <? p)%Z then NegInfinity else Infinity)
  | Value Infinity, Value Infinity | Value NegInfinity, Value NegInfinity => Value Infinity
  | Value Infinity, Value NegInfinity | Value NegInfinity, Value Infinity =>
      Value NegInfinity
  | _, _ => NaN
  end.

(** [a + b] *)
Definition js_add (a b : numeric) : numeric :=
  match a, b with
  | Value (Num p), Value (Num q) => Value (fl (p + q))
  | Value Infinity, Value NegInfinity | Value NegInfinity, Value Infinity => NaN
  | Value Infinity, Value _ | Value _, Value Infinity => Value Infinity
  | Value NegInfinity, Value _ | Value _, Value NegInfinity => Value NegInfinity
  | _, _ => NaN
  end.

(** [n >= c] for an integer constant [c]. *)
Definition js_ge (n : number) (c : Z) : bool :=
  match n with
  | Num z => (z >=? c)%Z
  | Infinity => true
  | NegInfinity => false
  end.

(** [n ? ... : ...]: 0 is the falsy one. *)
Definition js_truthy (n : number) : bool :=
  match n with
  | Num z => negb (z =? 0)%Z
  | _ => true
  end.

(** The double nearest to [p / q] for [0 < p] and [0 < q], as an integer
    [m] of 53 bits and the number [k] of its bits after the point: the
    double is [m / 2 ^ k], or [m * 2 ^ (- k)] for a negative [k]. *)
Definition quotient53 (p q : Z) : Z * Z :=
  let e0 := (Z.log2 p - Z.log2 q)%Z in
  let below :=
    if (0 <=? e0)%Z then (p <? q * 2 ^ e0)%Z else (p * 2 ^ (- e0) <? q)%Z in
  let e := if below then (e0 - 1)%Z else e0 in
  let k := (52 - e)%Z in
  (if (0 <=? k)%Z then round_half_even (p * 2 ^ k) q
   else round_half_even p (q * 2 ^ (- k)),
   k).

(** [Math.floor(p / q)] for integers [p] and [0 < q]: the division
    rounds to a double, of which the floor is taken. *)
Definition floor_quotient (p q : Z) : Z :=
  if (p =? 0)%Z then 0%Z
  else
    let '(m, k) := quotient53 (Z.abs p) q in
    if (k <=? 0)%Z then (Z.sgn p * (m * 2 ^ (- k)))%Z
    else if (0 <? p)%Z then (m / 2 ^ k)%Z
    else (- ((m + 2 ^ k - 1) / 2 ^ k))%Z.

(** [Math.floor(n / u)] for an integer constant [0 < u]. *)
Definition js_floor_div (n : number) (u : Z) : number :=
  match n with
  | Num z => Num (floor_quotient z u)
  | Infinity => Infinity
  | NegInfinity => NegInfinity
  end.

(** An integer written in decimal. *)
Definition decimal (z : Z) : string := NilZero.string_of_int (Z.to_int z).

(** Of the two multiples of [10 ^ (n - k)] around [d], the ones that
    round to the double [d]: the nearer one, the even one of two that are
    equally near. *)
Definition candidate (d n k : Z) : option Z :=
  let p := (10 ^ (n - k))%Z in
  let lo := (d / p * p)%Z in
  let hi := (lo + p)%Z in
  let is_d v := match fl v with Num x => (x =? d)%Z | _ => false end in
  match is_d lo, is_d hi with
  | true, true =>
      Some (if (d - lo <? hi - d)%Z then lo
            else if (hi - d <? d - lo)%Z then hi
            else if Z.even (d / p) then lo else hi)
  | true, false => Some lo
  | false, true => Some hi
  | false, false => None
  end.

(** The integer with the fewest significant digits, [k] or more, that
    rounds to the double [d] of [n] digits. *)
Fixpoint shortest (fuel : nat) (d n k : Z) : Z :=
  match fuel with
  | O => d
  | S fuel' =>
      match candidate d n k with
      | Some v => v
      | None => shortest fuel' d n (k + 1)%Z
      end
  end.

(** A text of digits without the zeros at its end. *)
Fixpoint significant (s : string) : string :=
  match s with
  | EmptyString => EmptyString
  | String c r =>
      match significant r with
      | EmptyString => if Ascii.eqb c "0" then EmptyString else String c EmptyString
      | r' => String c r'
      end
  end.

(** The form with an exponent, for an integer of more than 21 digits. *)
Definition exponent_form (ds : string) : string :=
  match significant ds with
  | String c r =>
      String c (match r with EmptyString => EmptyString | _ => "." +:+ r end)
        +:+ "e+" +:+ decimal (Z.of_nat (String.length ds) - 1)
  | EmptyString => ds
  end.

(** [Number.prototype.toString] on a positive integer that is a double:
    below [2 ^ 53] its digits; from there on the fewest digits that
    still denote this double, then zeros, or an exponent from [1e21] on. *)
Definition show_double (d : Z) : string :=
  if (d <? 2 ^ 53)%Z then decimal d
  else
    let n := Z.of_nat (String.length (decimal d)) in
    let ds := decimal (shortest 17 d n 1) in
    if (Z.of_nat (String.length ds) <=? 21)%Z then ds else exponent_form ds.

(** A template-literal hole filled with a number. *)
Definition show_number (n : number) : string :=
  match n with
  | Infinity => "Infinity"
  | NegInfinity => "-Infinity"
  | Num z =>
      if (z =? 0)%Z then "0"
      else if (z <? 0)%Z then "-" +:+ show_double (- z)
      else show_double z
  end.

Definition is_upper (c : ascii) : bool :=
  (Nat.leb 65 (nat_of_ascii c) && Nat.leb (nat_of_ascii c) 90)%bool.

Definition lower_char (c : ascii) : ascii :=
  if is_upper c then ascii_of_nat (nat_of_ascii c + 32) else c.

(** [String.prototype.toLowerCase] on the ASCII letters. *)
Fixpoint toLowerCase (s : string) : string :=
  match s with
  | EmptyString => EmptyString
  | String c r => String (lower_char c) (toLowerCase r)
  end.

(** ** The regular expression of the duration parser *)

Definition is_digit (c : ascii) : bool :=
  (Nat.leb 48 (nat_of_ascii c) && Nat.leb (nat_of_ascii c) 57)%bool.

Definition digit_value (c : ascii) : Z := Z.of_nat (nat_of_ascii c) - 48.

(** The fragment of regular expressions the client uses. *)
Inductive regex : Type :=
| RDigit                       (* \d *)
| RLit (s : string)            (* literal characters *)
| RAlt (r1 r2 : regex)         (* r1|r2 *)
| RSeq (r1 r2 : regex)         (* r1r2 *)
| RPlus (r : regex).           (* r+, greedy *)

Fixpoint strip_prefix (p : list ascii) (s : list ascii) : option (list ascii) :=
  match p, s with
  | [], _ => Some s
  | a :: p', b :: s' => if Ascii.eqb a b then strip_prefix p' s' else None
  | _ :: _, [] => None
  end.

(** The iterations of a greedy [r+]: after one match of [r] (given by
    [once]) the engine first tries to go on, then to stop there.  An
    iteration that consumes nothing is not repeated. *)
Fixpoint plus_iter (once : list ascii -> list (list ascii * list ascii))
    (fuel : nat) (s : list ascii) : list (list ascii * list ascii) :=
  match fuel with
  | O => []
  | S fuel' =>
      flat_map (fun '(m1, s1) =>
                  (if Nat.ltb (length s1) (length s)
                   then map (fun '(m2, s2) => (m1 ++ m2, s2)) (plus_iter once fuel' s1)
                   else []) ++ [(m1, s1)])
               (once s)
  end.

(** Backtracking matcher: all the ways [r] matches a prefix of [s], as
    (matched text, rest), in the order the engine tries them. *)
Fixpoint rmatch (r : regex) (s : list ascii) : list (list ascii * list ascii) :=
  match r with
  | RDigit =>
      match s with
      | c :: s' => if is_digit c then [([c], s')] else []
      | [] => []
      end
  | RLit l =>
      match strip_prefix (list_ascii_of_string l) s with
      | Some s' => [(list_ascii_of_string l, s')]
      | None => []
      end
  | RAlt r1 r2 => rmatch r1 s ++ rmatch r2 s
  | RSeq r1 r2 =>
      flat_map (fun '(m1, s1) =>
                  map (fun '(m2, s2) => (m1 ++ m2, s2)) (rmatch r2 s1))
               (rmatch r1 s)
  | RPlus r1 => plus_iter (rmatch r1) (length s) s
  end.

(** The two capture groups of [/(\d+)(ms|s|m|h|d|w|y)/g]. *)
Definition duration_group1 : regex := RPlus RDigit.

Definition duration_group2 : regex :=
  RAlt (RLit "ms") (RAlt (RLit "s") (RAlt (RLit "m") (RAlt (RLit "h")
    (RAlt (RLit "d") (RAlt (RLit "w") (RLit "y")))))).

(** One match of the regex: its two captures and the index after it. *)
Record RegexMatch : Type := mkRegexMatch {
  capture1 : string;
  capture2 : string;
  lastIndex : nat;
}.

(** The first way the two groups match at the start of [s]. *)
Definition match_here (s : list ascii)
  : option (list ascii * list ascii * list ascii) :=
  hd_error
    (flat_map (fun '(m1, s1) =>
                 map (fun '(m2, s2) => (m1, m2, s2)) (rmatch duration_group2 s1))
              (rmatch duration_group1 s)).

(** The search of [exec]: [s] is the text from index [i] on; the match
    is tried at [i], then at the following indices. *)
Fixpoint search_from (s : list ascii) (i : nat) : option RegexMatch :=
  match match_here s with
  | Some (m1, m2, _) =>
      Some (mkRegexMatch (string_of_list_ascii m1) (string_of_list_ascii m2)
                         (i + length m1 + length m2))
  | None =>
      match s with
      | [] => None
      | _ :: s' => search_from s' (S i)
      end
  end.

(** [regex.exec(str)] of a global regex whose [lastIndex] is [i]. *)
Definition regex_exec (str : string) (i : nat) : option RegexMatch :=
  search_from (skipn i (list_ascii_of_string str)) i.

(** The integer the leading digits of a text denote. *)
Fixpoint parseInt_go (acc : Z) (s : list ascii) : Z :=
  match s with
  | c :: s' => if is_digit c then parseInt_go (10 * acc + digit_value c) s' else acc
  | [] => acc
  end.

(** [parseInt(s, 10)] on a text that starts with a digit, as the first
    capture of the regex does: the double nearest to the integer the
    digits denote. *)
Definition parseInt (s : string) : number := fl (parseInt_go 0 (list_ascii_of_string s)).

(** ** parseDuration *)

(** The table of the units; it is read at the second capture of the
    regex, which is one of its seven keys. *)
Definition units : gmap string Z :=
  list_to_map
    [("ms", 1); ("s", 1000); ("m", 60 * 1000); ("h", 60 * 60 * 1000);
     ("d", 24 * 60 * 60 * 1000); ("w", 7 * 24 * 60 * 60 * 1000);
     ("y", 365 * 24 * 60 * 60 * 1000)]%Z.

(** [x || d] on an optional number. *)
Definition or_number (x : option Z) (d : Z) : Z :=
  match x with
  | Some v => if (v =? 0)%Z then d else v
  | None => d
  end.

(** [total || d]: [0] and [NaN] are the falsy ones. *)
Definition or_numeric (total : numeric) (d : number) : number :=
  match total with
  | Value n => if js_truthy n then n else d
  | NaN => d
  end.

(** The [while ((match = regex.exec(durationStr)) !== null)] loop; every
    match moves [lastIndex] forward, so [fuel] bounds the iterations. *)
Fixpoint parseDuration_loop (fuel : nat) (durationStr : string)
                            (lastIdx : nat) (total : numeric) : numeric :=
  match fuel with
  | O => total
  | S fuel' =>
      match regex_exec durationStr lastIdx with
      | None => total
      | Some m =>
          let value := parseInt (capture1 m) in
          let unit := capture2 m in
          parseDuration_loop fuel' durationStr (lastIndex m)
            (js_add total
                    (js_mul (Value value) (Value (Num (or_number (units !! unit) 0)))))
      end
  end.

Definition parseDuration (durationStr : string) : number :=
  let total :=
    parseDuration_loop (S (String.length durationStr)) durationStr 0 (Value (Num 0)) in
  or_numeric total 300000.

(** ** The concrete syntax tree, as seen through the lezer interface *)

Inductive SyntaxNode : Type := mkSyntaxNode {
  typeName : string;               (* node.type.name *)
  typeGroups : list string;        (* node.type.prop(NodeProp.group) *)
  typeIsError : bool;              (* node.type.isError *)
  from : nat;
  to : nat;
  childNodes : list SyntaxNode;    (* firstChild, then nextSibling *)
}.

Definition firstChild (node : SyntaxNode) : option SyntaxNode :=
  hd_error (childNodes node).

(** [node.type.is(name)]: the name of the kind, or the name of one of
    the groups the grammar puts the kind in. *)
Definition typeIs (node : SyntaxNode) (name : string) : bool :=
  (String.eqb (typeName node) name
   || existsb (String.eqb name) (typeGroups node))%bool.

(** [node.getChild(kind)]: the first direct child whose type is [kind],
    by name or by group. *)
Definition getChild (node : SyntaxNode) (kind : string) : option SyntaxNode :=
  find (fun c => typeIs c kind) (childNodes node).

Fixpoint height (node : SyntaxNode) : nat :=
  match node with
  | mkSyntaxNode _ _ _ _ _ cs =>
      S ((fix heights (l : list SyntaxNode) : nat :=
            match l with
            | [] => 0
            | c :: l' => Nat.max (height c) (heights l')
            end) cs)
  end.

(** [cursor.iterate(enter)]: the nodes in document order; the children of
    a node are entered only when [enter] answers [true]. *)
Fixpoint iterate {S : Type} (enter : SyntaxNode -> S -> S * bool)
                 (node : SyntaxNode) (st : S) : S :=
  match node with
  | mkSyntaxNode _ _ _ _ _ cs =>
      let (st1, descend) := enter node st in
      if descend
      then (fix siblings (l : list SyntaxNode) (st : S) : S :=
              match l with
              | [] => st
              | c :: l' => siblings l' (iterate enter c st)
              end) cs st1
      else st1
  end.

(** [n] is [root] or lies below it. *)
Inductive InTree (n : SyntaxNode) : SyntaxNode -> Prop :=
| InTree_here : InTree n n
| InTree_below (root c : SyntaxNode) :
    In c (childNodes root) -> InTree n c -> InTree n root.

(** ** The AST *)

Inductive NodeType : Type :=
| aggregation | binaryExpr | call | matrixSelector | subquery
| numberLiteral | parenExpr | stringLiteral | unaryExpr | vectorSelector
| error.

(** The operator of a matcher: ['=' | '!=' | '=~' | '!~']. *)
Inductive MatchType : Type := MatchEq | MatchNeq | MatchRe | MatchNre.

Record LabelMatcher : Type := mkLabelMatcher {
  matcherType : MatchType;
  matcherName : string;
  matcherValue : string;
}.

Inductive ParsedNode : Type := mkParsedNode {
  type : NodeType;
  text : string;
  children : option (list ParsedNode);
  op : option string;
  name : option string;
  matchers : option (list LabelMatcher);
  range : option number;
  offset : option number;
  grouping : option (list string);
  without : option bool;
  funcName : option string;
  args : option (list ParsedNode);
  value : option string;
}.

Record ParseResult : Type := mkParseResult {
  success : bool;
  ast : option ParsedNode;
  error_message : option string;   (* the field [error] *)
}.

(** The object literals of [buildAST], one per shape. *)
Definition errorNode (text : string) (children : option (list ParsedNode)) : ParsedNode :=
  mkParsedNode error text children None None None None None None None None None None.

Definition aggregationNode (text op : string) (grouping : list string)
    (without : bool) (children : list ParsedNode) : ParsedNode :=
  mkParsedNode aggregation text (Some children) (Some op) None None None None
               (Some grouping) (Some without) None None None.

Definition callNode (text funcName : string) (args : list ParsedNode) : ParsedNode :=
  mkParsedNode call text None None None None None None None None
               (Some funcName) (Some args) None.

Definition binaryExprNode (text op : string) (children : list ParsedNode) : ParsedNode :=
  mkParsedNode binaryExpr text (Some children) (Some op) None None None None None None
               None None None.

Definition vectorSelectorNode (text name : string) (matchers : list LabelMatcher)
  : ParsedNode :=
  mkParsedNode vectorSelector text None None (Some name) (Some matchers) None None None
               None None None None.

Definition matrixSelectorNode (text : string) (name : option string)
    (matchers : option (list LabelMatcher)) (range : number) : ParsedNode :=
  mkParsedNode matrixSelector text None None name matchers (Some range) None None None
               None None None.

Definition bareMatrixSelectorNode (text : string) : ParsedNode :=
  mkParsedNode matrixSelector text None None None None None None None None None None None.

Definition subqueryNode (text : string) (children : list ParsedNode) : ParsedNode :=
  mkParsedNode subquery text (Some children) None None None None None None None None
               None None.

Definition numberLiteralNode (text : string) : ParsedNode :=
  mkParsedNode numberLiteral text None None None None None None None None None None
               (Some text).

Definition stringLiteralNode (text : string) : ParsedNode :=
  mkParsedNode stringLiteral text None None None None None None None None None None
               (Some (js_slice text 1 (-1))).

Definition parenExprNode (text : string) (children : list ParsedNode) : ParsedNode :=
  mkParsedNode parenExpr text (Some children) None None None None None None None None
               None None.

Definition unaryExprNode (text op : string) (children : list ParsedNode) : ParsedNode :=
  mkParsedNode unaryExpr text (Some children) (Some op) None None None None None None
               None None None.

(** [list.includes(x)] on strings. *)
Definition includes (l : list string) (x : string) : bool :=
  existsb (String.eqb x) l.

(** [s.includes(sub)] on strings. *)
Definition str_includes (s sub : string) : bool :=
  match index 0 sub s with
  | Some _ => true
  | None => false
  end.

Definition exprTypes : list string :=
  ["Expr"; "AggregateExpr"; "FunctionCall"; "BinaryExpr";
   "VectorSelector"; "MatrixSelector"; "SubqueryExpr";
   "NumberLiteral"; "NumberDurationLiteral"; "StringLiteral";
   "ParenExpr"; "UnaryExpr"; "StepInvariantExpr"].

Definition isExpressionNode (node : SyntaxNode) : bool :=
  includes exprTypes (typeName node).

Definition binaryOpNames : list string :=
  ["Add"; "Sub"; "Mul"; "Div"; "Mod"; "Pow"; "Eql"; "Neq"; "Lss"; "Lte";
   "Gtr"; "Gte"; "And"; "Or"; "Unless"].

(** [a || b] on two optional nodes. *)
Definition or_node (a b : option SyntaxNode) : option SyntaxNode :=
  match a with
  | Some _ => a
  | None => b
  end.

Section WithQuery.

Variable query : string.

(** [query.slice(node.from, node.to)] *)
Definition sliceOf (node : SyntaxNode) : string :=
  js_slice query (Z.of_nat (from node)) (Z.of_nat (to node)).

Definition matchTypeOf (opText : string) : MatchType :=
  if String.eqb opText "!=" then MatchNeq
  else if String.eqb opText "=~" then MatchRe
  else if String.eqb opText "!~" then MatchNre
  else MatchEq.

Definition matcherKinds : list string :=
  ["LabelMatcher"; "UnquotedLabelMatcher"; "QuotedLabelMatcher"].

(** The body of the [do ... while (cursor.nextSibling())] loop of
    [parseLabelMatchers], at the child the cursor is on. *)
Definition parseLabelMatchers_visit (matchers : list LabelMatcher)
    (matcherNode : SyntaxNode) : list LabelMatcher :=
  if includes matcherKinds (typeName matcherNode) then
    let labelName := getChild matcherNode "LabelName" in
    let matchOp := getChild matcherNode "MatchOp" in
    let stringLit := getChild matcherNode "StringLiteral" in
    match labelName, stringLit with
    | Some labelName, Some stringLit =>
        let name := sliceOf labelName in
        let matchType :=
          match matchOp with
          | Some matchOp => matchTypeOf (sliceOf matchOp)
          | None => MatchEq
          end in
        let rawValue := sliceOf stringLit in
        let value := js_slice rawValue 1 (-1) in
        matchers ++ [mkLabelMatcher matchType name value]
    | _, _ => matchers
    end
  else matchers.

Definition parseLabelMatchers (node : SyntaxNode) : list LabelMatcher :=
  fold_left parseLabelMatchers_visit (childNodes node) [].

Definition parseGroupingLabels (node : SyntaxNode) : list string :=
  fold_left (fun labels c =>
               if String.eqb (typeName c) "LabelName"
               then labels ++ [sliceOf c] else labels)
            (childNodes node) [].

(** One unfolding of [buildAST]; [self] stands for the recursive calls. *)
Definition buildAST_step (self : SyntaxNode -> ParsedNode) (node : SyntaxNode)
  : ParsedNode :=
  let nodeType := typeName node in
  let text := sliceOf node in
  if (String.eqb nodeType "PromQL" || String.eqb nodeType "Expr")%bool then
    match firstChild node with
    | Some child => self child
    | None => errorNode text None
    end
  else if String.eqb nodeType "AggregateExpr" then
    let aggOp := getChild node "AggregateOp" in
    let modifier := getChild node "AggregateModifier" in
    let body := getChild node "FunctionCallBody" in
    let without :=
      match modifier with
      | Some modifier =>
          match getChild modifier "Without" with Some _ => true | None => false end
      | None => false
      end in
    let grouping :=
      match modifier with
      | Some modifier =>
          match getChild modifier "GroupingLabels" with
          | Some labels => parseGroupingLabels labels
          | None => []
          end
      | None => []
      end in
    let children :=
      match body with
      | Some body =>
          match firstChild body with
          | Some child => if isExpressionNode child then [self child] else []
          | None => []
          end
      | None => []
      end in
    aggregationNode text
      (match aggOp with
       | Some aggOp => toLowerCase (sliceOf aggOp)
       | None => "unknown"
       end)
      grouping without children
  else if String.eqb nodeType "FunctionCall" then
    let funcId := getChild node "FunctionIdentifier" in
    let body := getChild node "FunctionCallBody" in
    let args :=
      match body with
      | Some body =>
          fold_left (fun args child =>
                       if isExpressionNode child then args ++ [self child] else args)
                    (childNodes body) []
      | None => []
      end in
    callNode text
      (match funcId with Some funcId => sliceOf funcId | None => "unknown" end)
      args
  else if String.eqb nodeType "BinaryExpr" then
    let '(children, op) :=
      fold_left (fun (st : list ParsedNode * string) child =>
                   let (children, op) := st in
                   if isExpressionNode child then (children ++ [self child], op)
                   else if (str_includes (typeName child) "Op"
                            || includes binaryOpNames (typeName child))%bool
                        then (children, sliceOf child)
                        else (children, op))
                (childNodes node) ([], "") in
    binaryExprNode text op children
  else if String.eqb nodeType "VectorSelector" then
    let identifier :=
      or_node (getChild node "Identifier") (getChild node "MetricIdentifier") in
    let labelMatchersNode := getChild node "LabelMatchers" in
    vectorSelectorNode text
      (match identifier with Some identifier => sliceOf identifier | None => "" end)
      (match labelMatchersNode with
       | Some labelMatchersNode => parseLabelMatchers labelMatchersNode
       | None => []
       end)
  else if String.eqb nodeType "MatrixSelector" then
    let vectorSelectorChild := getChild node "VectorSelector" in
    let durationNode :=
      or_node (getChild node "Duration")
              (getChild node "NumberDurationLiteralInDurationContext") in
    match vectorSelectorChild with
    | Some vectorSelectorChild =>
        let vsAst := self vectorSelectorChild in
        matrixSelectorNode text (name vsAst) (matchers vsAst)
          (match durationNode with
           | Some durationNode => parseDuration (sliceOf durationNode)
           | None => Num 300000
           end)
    | None =>
        match getChild node "FunctionCall" with
        | Some funcCall => self funcCall
        | None => bareMatrixSelectorNode text
        end
    end
  else if String.eqb nodeType "SubqueryExpr" then
    subqueryNode text
      (match getChild node "Expr" with Some expr => [self expr] | None => [] end)
  else if (String.eqb nodeType "NumberLiteral"
           || String.eqb nodeType "NumberDurationLiteral")%bool then
    numberLiteralNode text
  else if String.eqb nodeType "StringLiteral" then
    stringLiteralNode text
  else if String.eqb nodeType "ParenExpr" then
    parenExprNode text
      (match getChild node "Expr" with Some inner => [self inner] | None => [] end)
  else if String.eqb nodeType "UnaryExpr" then
    let '(op, children) :=
      fold_left (fun (st : string * list ParsedNode) current =>
                   let (op, children) := st in
                   if (String.eqb (typeName current) "Add"
                       || String.eqb (typeName current) "Sub")%bool
                   then (sliceOf current, children)
                   else if isExpressionNode current
                        then (op, children ++ [self current])
                        else (op, children))
                (childNodes node) ("", []) in
    unaryExprNode text op children
  else
    let children :=
      fold_left (fun children child =>
                   if isExpressionNode child then children ++ [self child] else children)
                (childNodes node) [] in
    match children with
    | [only] => only
    | [] => errorNode text None
    | _ => errorNode text (Some children)
    end.

(** [buildAST] recurses into nodes below its argument only, so the
    height of the argument is fuel enough. *)
Fixpoint buildAST_fuel (fuel : nat) (node : SyntaxNode) : ParsedNode :=
  match fuel with
  | O => errorNode (sliceOf node) None
  | S fuel' => buildAST_step (buildAST_fuel fuel') node
  end.

Definition buildAST (node : SyntaxNode) : ParsedNode :=
  buildAST_fuel (height node) node.

End WithQuery.

(** ** explainQuery *)

(** The double quote inside the templates. *)
Definition dq : string := String (ascii_of_nat 34) EmptyString.

(** The property names every object literal inherits from
    [Object.prototype]. *)
Definition inheritedNames : list string :=
  ["constructor"; "hasOwnProperty"; "isPrototypeOf"; "propertyIsEnumerable";
   "toLocaleString"; "toString"; "valueOf"; "__proto__"; "__defineGetter__";
   "__defineSetter__"; "__lookupGetter__"; "__lookupSetter__"].

(** What a template literal prints for the value inherited under a name:
    the prototype object for [__proto__], a native function, as V8
    prints it, for the other names. *)
Definition inheritedText (key : string) : string :=
  if String.eqb key "__proto__" then "[object Object]"
  else "function " +:+ (if String.eqb key "constructor" then "Object" else key)
         +:+ "() { [native code] }".

(** [table[key]] for a table that is an object literal: an entry of the
    table, or else what the literal inherits under that name, which is
    truthy and is kept here as the text it prints as. *)
Definition js_lookup (table : gmap string string) (key : string) : option string :=
  match table !! key with
  | Some v => Some v
  | None => if existsb (String.eqb key) inheritedNames then Some (inheritedText key) else None
  end.

(** The entries of the lookup tables. *)
Definition aggregationDescriptions : gmap string string :=
  list_to_map
    [("sum", "sums");
     ("avg", "calculates the average of");
     ("min", "finds the minimum of");
     ("max", "finds the maximum of");
     ("count", "counts");
     ("stddev", "calculates the standard deviation of");
     ("stdvar", "calculates the variance of");
     ("topk", "returns the top K values of");
     ("bottomk", "returns the bottom K values of");
     ("quantile", "calculates a quantile of");
     ("group", "groups")].

Definition funcDescriptions : gmap string string :=
  list_to_map
    [("rate", "calculates the per-second rate of increase");
     ("irate", "calculates the instant rate of increase");
     ("increase", "calculates the total increase");
     ("delta", "calculates the difference between first and last value");
     ("histogram_quantile", "calculates a percentile from histogram buckets");
     ("label_replace", "replaces label values using regex");
     ("label_join", "joins label values");
     ("abs", "returns absolute values");
     ("ceil", "rounds up to nearest integer");
     ("floor", "rounds down to nearest integer");
     ("round", "rounds to nearest integer");
     ("sqrt", "calculates square root");
     ("exp", "calculates exponential");
     ("ln", "calculates natural logarithm");
     ("log2", "calculates base-2 logarithm");
     ("log10", "calculates base-10 logarithm");
     ("time", "returns the current Unix timestamp");
     ("timestamp", "returns the timestamp of each sample");
     ("absent", "returns 1 if the series is absent");
     ("absent_over_time", "returns 1 if the series has no values in the range");
     ("changes", "counts value changes");
     ("resets", "counts counter resets");
     ("deriv", "calculates the derivative using linear regression");
     ("predict_linear", "predicts future values using linear regression");
     ("holt_winters", "applies Holt-Winters smoothing");
     ("clamp", "clamps values between min and max");
     ("clamp_min", "clamps values to a minimum");
     ("clamp_max", "clamps values to a maximum");
     ("sort", "sorts values ascending");
     ("sort_desc", "sorts values descending");
     ("avg_over_time", "calculates average over time range");
     ("min_over_time", "finds minimum over time range");
     ("max_over_time", "finds maximum over time range");
     ("sum_over_time", "sums values over time range");
     ("count_over_time", "counts samples over time range");
     ("stddev_over_time", "calculates standard deviation over time range");
     ("stdvar_over_time", "calculates variance over time range");
     ("last_over_time", "returns last value in time range");
     ("present_over_time", "returns 1 if any sample exists in range");
     ("quantile_over_time", "calculates quantile over time range")].

Definition binaryDescriptions : gmap string string :=
  list_to_map
    [("+", "adds");
     ("-", "subtracts");
     ("*", "multiplies");
     ("/", "divides");
     ("%", "calculates modulo of");
     ("^", "raises to the power of");
     ("==", "checks equality of");
     ("!=", "checks inequality of");
     (">", "compares (greater than)");
     ("<", "compares (less than)");
     (">=", "compares (greater or equal)");
     ("<=", "compares (less or equal)");
     ("and", "performs logical AND on");
     ("or", "performs logical OR on");
     ("unless", "excludes matching series from")].

Definition formatDuration (ms : number) : string :=
  if js_ge ms 86400000 then show_number (js_floor_div ms 86400000) +:+ "d"
  else if js_ge ms 3600000 then show_number (js_floor_div ms 3600000) +:+ "h"
  else if js_ge ms 60000 then show_number (js_floor_div ms 60000) +:+ "m"
  else if js_ge ms 1000 then show_number (js_floor_div ms 1000) +:+ "s"
  else show_number ms +:+ "ms".

(** The arrow function mapped over the matchers of a vector selector. *)
Definition describeMatcher (m : LabelMatcher) : string :=
  match matcherType m with
  | MatchEq => matcherName m +:+ " equals " +:+ dq +:+ matcherValue m +:+ dq
  | MatchNeq => matcherName m +:+ " does not equal " +:+ dq +:+ matcherValue m +:+ dq
  | MatchRe => matcherName m +:+ " matches regex " +:+ dq +:+ matcherValue m +:+ dq
  | MatchNre =>
      matcherName m +:+ " does not match regex " +:+ dq +:+ matcherValue m +:+ dq
  end.

(** [l && l.length > 0] on an optional array. *)
Definition nonempty {A : Type} (l : option (list A)) : bool :=
  match l with
  | Some (_ :: _) => true
  | _ => false
  end.

Definition itemsOf {A : Type} (l : option (list A)) : list A :=
  match l with
  | Some xs => xs
  | None => []
  end.

Definition explainQuery (ast : ParsedNode) : string :=
  match type ast with
  | aggregation =>
      let opDesc :=
        or_string (js_lookup aggregationDescriptions (or_string (op ast) ""))
                  ("applies " +:+ show_string (op ast) +:+ " to") in
      let explanation := "This expression " +:+ opDesc +:+ " the values" in
      if nonempty (grouping ast) then
        match without ast with
        | Some true =>
            explanation +:+ ", excluding labels: "
                        +:+ js_join ", " (itemsOf (grouping ast))
        | _ =>
            explanation +:+ ", grouped by: "
                        +:+ js_join ", " (itemsOf (grouping ast))
        end
      else explanation
  | call =>
      let desc :=
        or_string (js_lookup funcDescriptions (or_string (funcName ast) ""))
                  ("applies " +:+ show_string (funcName ast) +:+ "()") in
      "The " +:+ show_string (funcName ast) +:+ "() function " +:+ desc
  | vectorSelector =>
      let explanation :=
        "Selects the metric " +:+ dq +:+ or_string (name ast) "(any)" +:+ dq in
      if nonempty (matchers ast) then
        let matcherDescs := map describeMatcher (itemsOf (matchers ast)) in
        explanation +:+ " where " +:+ js_join " AND " matcherDescs
      else explanation
  | matrixSelector =>
      let explanation :=
        "Selects "
          +:+ (match range ast with
               | Some r => if js_truthy r then formatDuration r else "5 minutes"
               | None => "5 minutes"
               end)
          +:+ " of data for " +:+ dq +:+ or_string (name ast) "(any)" +:+ dq in
      if nonempty (matchers ast) then explanation +:+ " with label filters"
      else explanation
  | binaryExpr =>
      "Binary operation that "
        +:+ (match js_lookup binaryDescriptions (or_string (op ast) "") with
             | Some (String c d) => String c d
             | _ => show_string (op ast)
             end)
        +:+ " two expressions"
  | numberLiteral => "A scalar number with value " +:+ show_string (value ast)
  | stringLiteral => "A string value: " +:+ dq +:+ show_string (value ast) +:+ dq
  | parenExpr => "Parentheses grouping a sub-expression"
  | unaryExpr =>
      "Unary "
        +:+ (match op ast with
             | Some o => if String.eqb o "-" then "negation" else "plus"
             | None => "plus"
             end)
        +:+ " operator"
  | subquery => "A subquery that evaluates an expression over a time range"
  | error => "PromQL expression"
  end.

(** ** parseQuery *)

(** What a [throw] carries: an [Error] with its message, or anything else. *)
Inductive Thrown : Type :=
| ThrownError (message : string)
| ThrownOther.

(** A computation ends normally or by a throw. *)
Inductive Completion (A : Type) : Type :=
| Normal (a : A)
| Throw (e : Thrown).

Arguments Normal {A} a.
Arguments Throw {A} e.

Definition bind {A B : Type} (c : Completion A) (k : A -> Completion B)
  : Completion B :=
  match c with
  | Normal a => k a
  | Throw e => Throw e
  end.

Definition try_catch {A : Type} (body : Completion A)
    (handler : Thrown -> Completion A) : Completion A :=
  match body with
  | Normal a => Normal a
  | Throw e => handler e
  end.

Definition failure (msg : string) : ParseResult := mkParseResult false None (Some msg).

(** The callback given to [cursor.iterate]; the state is [hasError]. *)
Definition checkError (node : SyntaxNode) (hasError : bool) : bool * bool :=
  if typeIsError node then (true, false) else (hasError, true).

Section WithParser.

(** [parser.parse] of the lezer grammar: a tree, or a throw. *)
Variable parser_parse : string -> Completion SyntaxNode.

Definition parseQuery (query : string) : Completion ParseResult :=
  try_catch
    (bind (parser_parse query) (fun tree =>
       let hasError := iterate checkError tree false in
       if hasError then Normal (failure "Parse error in query")
       else
         match firstChild tree with
         | None => Normal (failure "Empty query")
         | Some node =>
             let ast := buildAST query node in
             Normal (mkParseResult true (Some ast) None)
         end))
    (fun e =>
       Normal (failure (match e with
                        | ThrownError message => message
                        | ThrownOther => "Unknown parse error"
                        end))).

End WithParser.

(** ** The specification's reading of the duration scan

    A left-to-right scan: a maximal run of digits followed by a unit
    token is a match; everything else is passed over. *)

Definition unit_tokens : list string := ["ms"; "s"; "m"; "h"; "d"; "w"; "y"].

Definition unitMilliseconds (u : string) : Z :=
  if String.eqb u "ms" then 1
  else if String.eqb u "s" then 1000
  else if String.eqb u "m" then 60000
  else if String.eqb u "h" then 3600000
  else if String.eqb u "d" then 86400000
  else if String.eqb u "w" then 604800000
  else if String.eqb u "y" then 31536000000
  else 0.

(** The first token of [toks] the text starts with. *)
Fixpoint first_token (toks : list string) (s : list ascii)
  : option (string * list ascii) :=
  match toks with
  | [] => None
  | t :: toks' =>
      match strip_prefix (list_ascii_of_string t) s with
      | Some r => Some (t, r)
      | None => first_token toks' s
      end
  end.

(** [acc] is the integer read so far in the current run of digits. *)
Fixpoint durationMatches_go (acc : option Z) (s : list ascii) : list (Z * string) :=
  match s with
  | [] => []
  | c :: r =>
      if is_digit c then
        durationMatches_go
          (Some (10 * (match acc with Some n => n | None => 0 end) + digit_value c)%Z) r
      else
        match acc with
        | None => durationMatches_go None r
        | Some n =>
            match first_token unit_tokens s with
            | Some (u, _) =>
                (n, u) ::
                  (if Nat.eqb (String.length u) 2
                   then match r with
                        | [] => []
                        | _ :: r' => durationMatches_go None r'
                        end
                   else durationMatches_go None r)
            | None => durationMatches_go None r
            end
        end
  end.

Definition durationMatches (s : string) : list (Z * string) :=
  durationMatches_go None (list_ascii_of_string s).

Definition sumMatches (l : list (Z * string)) : Z :=
  fold_right (fun '(n, u) t => (n * unitMilliseconds u + t)%Z) 0%Z l.

Definition spec_parseDuration (s : string) : Z :=
  let total := sumMatches (durationMatches s) in
  if (total =? 0)%Z then 300000%Z else total.


(** ** The specification's reading of the matcher extractor *)

Fixpoint dropLast (s : string) : string :=
  match s with
  | EmptyString => EmptyString
  | String c EmptyString => EmptyString
  | String c r => String c (dropLast r)
  end.

(** A literal without its first and last character (the quote marks). *)
Definition stripQuotes (s : string) : string :=
  match s with
  | EmptyString => EmptyString
  | String _ r => dropLast r
  end.

Definition operatorTokens : list (string * MatchType) :=
  [("!=", MatchNeq); ("=~", MatchRe); ("!~", MatchNre)].

(** The operator named by the text of the match-operator child, if any. *)
Definition spec_operator (opText : option string) : MatchType :=
  match opText with
  | Some t =>
      match find (fun '(tok, _) => String.eqb tok t) operatorTokens with
      | Some (_, ty) => ty
      | None => MatchEq
      end
  | None => MatchEq
  end.

(** The matcher a direct child of the container contributes, if any. *)
Definition spec_matcherOf (query : string) (c : SyntaxNode) : list LabelMatcher :=
  if includes matcherKinds (typeName c) then
    match getChild c "LabelName", getChild c "StringLiteral" with
    | Some n, Some v =>
        [mkLabelMatcher
           (spec_operator (option_map (sliceOf query) (getChild c "MatchOp")))
           (sliceOf query n)
           (stripQuotes (sliceOf query v))]
    | _, _ => []
    end
  else [].

Definition spec_labelMatchers (query : string) (node : SyntaxNode) : list LabelMatcher :=
  flat_map (spec_matcherOf query) (childNodes node).

(** ** The specification's reading of the explanations *)

Definition aggregationOperators : list string :=
  ["sum"; "avg"; "min"; "max"; "count"; "stddev"; "stdvar"; "topk"; "bottomk";
   "quantile"; "group"].

(** The verb phrase of an aggregation operator. *)
Definition spec_aggregationVerb (o : string) : string :=
  if String.eqb o "sum" then "sums"
  else if String.eqb o "avg" then "calculates the average of"
  else if String.eqb o "min" then "finds the minimum of"
  else if String.eqb o "max" then "finds the maximum of"
  else if String.eqb o "count" then "counts"
  else if String.eqb o "stddev" then "calculates the standard deviation of"
  else if String.eqb o "stdvar" then "calculates the variance of"
  else if String.eqb o "topk" then "returns the top K values of"
  else if String.eqb o "bottomk" then "returns the bottom K values of"
  else if String.eqb o "quantile" then "calculates a quantile of"
  else if String.eqb o "group" then "groups"
  else "applies " +:+ o +:+ " to".

Definition spec_groupingClause (excluding : bool) (labels : list string) : string :=
  match labels with
  | [] => ""
  | _ =>
      (if excluding then ", excluding labels: " else ", grouped by: ")
        +:+ String.concat ", " labels
  end.

Definition isTrue (b : option bool) : bool :=
  match b with
  | Some true => true
  | _ => false
  end.



Definition relationOf (t : MatchType) : string :=
  match t with
  | MatchEq => "equals"
  | MatchNeq => "does not equal"
  | MatchRe => "matches regex"
  | MatchNre => "does not match regex"
  end.

Definition spec_renderMatcher (m : LabelMatcher) : string :=
  matcherName m +:+ " " +:+ relationOf (matcherType m) +:+ " "
    +:+ dq +:+ matcherValue m +:+ dq.

Definition spec_whereClause (ms : list LabelMatcher) : string :=
  match ms with
  | [] => ""
  | _ => " where " +:+ String.concat " AND " (map spec_renderMatcher ms)
  end.


(** The kinds [buildAST] has a [case] for. *)
Definition recognizedKinds : list string :=
  ["PromQL"; "Expr"; "AggregateExpr"; "FunctionCall"; "BinaryExpr";
   "VectorSelector"; "MatrixSelector"; "SubqueryExpr"; "NumberLiteral";
   "NumberDurationLiteral"; "StringLiteral"; "ParenExpr"; "UnaryExpr"].

(** [m] is [root] or one of the nodes below it, through [children] or
    [args]. *)
Inductive InAST (m : ParsedNode) : ParsedNode -> Prop :=
| InAST_here : InAST m m
| InAST_child (root c : ParsedNode) (cs : list ParsedNode) :
    children root = Some cs -> In c cs -> InAST m c -> InAST m root
| InAST_arg (root c : ParsedNode) (cs : list ParsedNode) :
    args root = Some cs -> In c cs -> InAST m c -> InAST m root.

(** A result is well formed when it carries the tree on success and the
    message on failure, and nothing else. *)
Definition wellFormedResult (r : ParseResult) : Prop :=
  if success r
  then (exists a, ast r = Some a) /\ error_message r = None
  else ast r = None /\ exists msg, error_message r = Some msg.

Definition thrownMessage (e : Thrown) : string :=
  match e with
  | ThrownError message => message
  | ThrownOther => "Unknown parse error"
  end.

(** ** Sample trees *)

(** The kinds the grammar of lezer-promql puts in its group [Expr]. *)
Definition exprGroup : list string :=
  ["AggregateExpr"; "BinaryExpr"; "FunctionCall"; "MatrixSelector";
   "NumberDurationLiteral"; "OffsetExpr"; "ParenExpr"; "StringLiteral";
   "SubqueryExpr"; "UnaryExpr"; "VectorSelector"; "StepInvariantExpr"].

Definition groupsOf (kind : string) : list string :=
  if includes exprGroup kind then ["Expr"] else [].

Definition leaf (kind : string) (a b : nat) : SyntaxNode :=
  mkSyntaxNode kind (groupsOf kind) false a b [].

Definition branch (kind : string) (a b : nat) (cs : list SyntaxNode) : SyntaxNode :=
  mkSyntaxNode kind (groupsOf kind) false a b cs.


(** [{status=~"5..",instance!="a"}] *)
Definition matchersQuery : string :=
  "{status=~" +:+ dq +:+ "5.." +:+ dq +:+ ",instance!=" +:+ dq +:+ "a" +:+ dq +:+ "}".

Definition matchersTree : SyntaxNode :=
  branch "LabelMatchers" 0 29
    [branch "UnquotedLabelMatcher" 1 14
       [leaf "LabelName" 1 7;
        branch "MatchOp" 7 9 [leaf "EqlRegex" 7 9];
        leaf "StringLiteral" 9 14];
     branch "UnquotedLabelMatcher" 15 28
       [leaf "LabelName" 15 23;
        branch "MatchOp" 23 25 [leaf "Neq" 23 25];
        leaf "StringLiteral" 25 28]].

(** [sum by (status) (rate(x[5m]))] *)
Definition sumQuery : string := "sum by (status) (rate(x[5m]))".

Definition sumTree : SyntaxNode :=
  branch "PromQL" 0 29
    [branch "AggregateExpr" 0 29
       [branch "AggregateOp" 0 3 [leaf "Sum" 0 3];
        branch "AggregateModifier" 4 15
          [leaf "By" 4 6;
           branch "GroupingLabels" 7 15 [leaf "LabelName" 8 14]];
        branch "FunctionCallBody" 16 29
          [branch "FunctionCall" 17 28
             [branch "FunctionIdentifier" 17 21 [leaf "Rate" 17 21];
              branch "FunctionCallBody" 21 28
                [branch "MatrixSelector" 22 27
                   [branch "VectorSelector" 22 23 [leaf "Identifier" 22 23];
                    leaf "NumberDurationLiteralInDurationContext" 24 26]]]]]].

(** [(up)[5m]]: a range taken of a parenthesised expression. *)
Definition parenRangeQuery : string := "(up)[5m]".

Definition parenRangeTree : SyntaxNode :=
  branch "MatrixSelector" 0 8
    [branch "ParenExpr" 0 4
       [branch "VectorSelector" 1 3 [leaf "Identifier" 1 3]];
     leaf "NumberDurationLiteralInDurationContext" 5 7].

(** [x[99...9s]], with 310 digits: a duration beyond the largest double. *)
Definition hugeQuery : string := "x[" +:+ String.concat "" (repeat "9" 310) +:+ "s]".

Definition hugeTree : SyntaxNode :=
  branch "MatrixSelector" 0 314
    [branch "VectorSelector" 0 1 [leaf "Identifier" 0 1];
     leaf "NumberDurationLiteralInDurationContext" 2 313].

(** [{job="api"}]: a selector without a metric name. *)
Definition anyMetricQuery : string := "{job=" +:+ dq +:+ "api" +:+ dq +:+ "}".

Definition anyMetricTree : SyntaxNode :=
  branch "VectorSelector" 0 11
    [branch "LabelMatchers" 0 11
       [branch "UnquotedLabelMatcher" 1 10
          [leaf "LabelName" 1 4;
           branch "MatchOp" 4 5 [leaf "EqlSingle" 4 5];
           leaf "StringLiteral" 5 10]]].

(** [up @ start()]: the step-invariant wrapper, a kind without a case. *)
Definition stepInvariantQuery : string := "up @ start()".

Definition stepInvariantTree : SyntaxNode :=
  branch "StepInvariantExpr" 0 12
    [branch "VectorSelector" 0 2 [leaf "Identifier" 0 2];
     leaf "At" 3 4;
     branch "AtModifierPreprocessors" 5 10 [leaf "Start" 5 10]].

(** ** Auxiliary definitions for the proofs *)

(** The maximal run of digits a text starts with, and what follows it. *)
Fixpoint digit_span (s : list ascii) : list ascii * list ascii :=
  match s with
  | c :: s' => if is_digit c then let (ds, r) := digit_span s' in (c :: ds, r) else ([], s)
  | [] => ([], [])
  end.

Definition starts_with_digit (s : list ascii) : bool :=
  match s with c :: _ => is_digit c | [] => false end.

(** The second capture group tried after a candidate for the first. *)
Definition with_units : list ascii * list ascii -> list (list ascii * list ascii * list ascii) :=
  fun '(m1, s1) => map (fun '(m2, s2) => (m1, m2, s2)) (rmatch duration_group2 s1).

Definition acc_value (acc : option Z) : Z := match acc with Some n => n | None => 0%Z end.

(** The entries of an object literal, read in order. *)
Fixpoint assoc_lookup {A} (l : list (string * A)) (k : string) : option A :=
  match l with
  | [] => None
  | (k', v) :: l' => if String.eqb k' k then Some v else assoc_lookup l' k
  end.



(** Some node of the tree is flagged as an error. *)
Definition flagged (n : SyntaxNode) : Prop :=
  exists m, InTree m n /\ typeIsError m = true.

(** A positive number: a positive integer or [Infinity]. *)
Definition positive (n : number) : Prop :=
  match n with
  | Num z => (0 < z)%Z
  | Infinity => True
  | NegInfinity => False
  end.

Definition nonneg (n : number) : Prop :=
  match n with
  | Num z => (0 <= z)%Z
  | Infinity => True
  | NegInfinity => False
  end.

(** An arithmetic result that is not negative. *)
Definition nonnegative (t : numeric) : Prop :=
  match t with
  | Value n => nonneg n
  | NaN => True
  end.

(** A matrix selector carries no range or a positive one. *)
Definition rangeOK (m : ParsedNode) : Prop :=
  type m = matrixSelector ->
  range m = None \/ exists r, range m = Some r /\ positive r.

Definition allRangesOK (a : ParsedNode) : Prop :=
  forall m, InAST m a -> rangeOK m.




(** The range selector [x[5m]] inside [sumQuery]. *)
Definition rangeTree : SyntaxNode :=
  branch "MatrixSelector" 22 27
    [branch "VectorSelector" 22 23 [leaf "Identifier" 22 23];
     leaf "NumberDurationLiteralInDurationContext" 24 26].

(** ** Further readings of the builder and of the explanations *)

(** The type of the object literal [buildAST] makes at a node of a kind. *)
Definition nodeTypeOf (kind : string) : NodeType :=
  if String.eqb kind "AggregateExpr" then aggregation
  else if String.eqb kind "FunctionCall" then call
  else if String.eqb kind "BinaryExpr" then binaryExpr
  else if String.eqb kind "VectorSelector" then vectorSelector
  else if String.eqb kind "MatrixSelector" then matrixSelector
  else if String.eqb kind "SubqueryExpr" then subquery
  else if (String.eqb kind "NumberLiteral" || String.eqb kind "NumberDurationLiteral")%bool
       then numberLiteral
  else if String.eqb kind "StringLiteral" then stringLiteral
  else if String.eqb kind "ParenExpr" then parenExpr
  else if String.eqb kind "UnaryExpr" then unaryExpr
  else error.

Definition present {A : Type} (o : option A) : bool :=
  match o with
  | Some _ => true
  | None => false
  end.

Definition atMostOne {A : Type} (o : option (list A)) : bool :=
  match o with
  | Some l => Nat.leb (length l) 1
  | None => false
  end.

(** The fields a node of each type carries. *)
Definition shapeOK (m : ParsedNode) : bool :=
  match type m with
  | aggregation =>
      (present (op m) && present (grouping m) && present (without m)
       && atMostOne (children m))%bool
  | call => (present (funcName m) && present (args m))%bool
  | binaryExpr => (present (op m) && present (children m))%bool
  | unaryExpr => (present (op m) && present (children m))%bool
  | vectorSelector => (present (name m) && present (matchers m))%bool
  | matrixSelector =>
      (present (range m)
       || (negb (present (name m)) && negb (present (matchers m))))%bool
  | subquery => atMostOne (children m)
  | parenExpr => atMostOne (children m)
  | numberLiteral =>
      match value m with
      | Some v => String.eqb v (text m)
      | None => false
      end
  | stringLiteral =>
      match value m with
      | Some v => String.eqb v (js_slice (text m) 1 (-1))
      | None => false
      end
  | error =>
      match children m with
      | Some l => Nat.leb 2 (length l)
      | None => true
      end
  end.

(** What holds of an object literal made at the node [n]. *)
Definition madeAt (query : string) (n : SyntaxNode) (m : ParsedNode) : Prop :=
  text m = sliceOf query n /\
  type m = nodeTypeOf (typeName n) /\
  shapeOK m = true.

(** The nodes built below a node, through [children] and [args]. *)
Definition subASTs (m : ParsedNode) : list ParsedNode :=
  itemsOf (children m) ++ itemsOf (args m).

(** The number of nodes on the longest path down from a node. *)
Fixpoint astDepth (m : ParsedNode) : nat :=
  match m with
  | mkParsedNode _ _ cs _ _ _ _ _ _ _ _ xs _ =>
      let depths :=
        fix depths (l : list ParsedNode) : nat :=
          match l with
          | [] => 0
          | c :: l' => Nat.max (astDepth c) (depths l')
          end in
      S (Nat.max (match cs with Some l => depths l | None => 0 end)
                 (match xs with Some l => depths l | None => 0 end))
  end.

(** The text of the last node of a list, or [""] for an empty list. *)
Definition lastSlice (query : string) (l : list SyntaxNode) : string :=
  match rev l with
  | c :: _ => sliceOf query c
  | [] => ""
  end.

(** The children a binary expression reads its operator from. *)
Definition isOperatorToken (c : SyntaxNode) : bool :=
  (negb (isExpressionNode c)
   && (str_includes (typeName c) "Op" || includes binaryOpNames (typeName c)))%bool.

(** The children a unary expression reads its sign from. *)
Definition isSignToken (c : SyntaxNode) : bool :=
  (String.eqb (typeName c) "Add" || String.eqb (typeName c) "Sub")%bool.

Definition functionNames : list string :=
  ["rate"; "irate"; "increase"; "delta"; "histogram_quantile"; "label_replace";
   "label_join"; "abs"; "ceil"; "floor"; "round"; "sqrt"; "exp"; "ln"; "log2";
   "log10"; "time"; "timestamp"; "absent"; "absent_over_time"; "changes";
   "resets"; "deriv"; "predict_linear"; "holt_winters"; "clamp"; "clamp_min";
   "clamp_max"; "sort"; "sort_desc"; "avg_over_time"; "min_over_time";
   "max_over_time"; "sum_over_time"; "count_over_time"; "stddev_over_time";
   "stdvar_over_time"; "last_over_time"; "present_over_time";
   "quantile_over_time"].

Definition binaryOperators : list string :=
  ["+"; "-"; "*"; "/"; "%"; "^"; "=="; "!="; ">"; "<"; ">="; "<=";
   "and"; "or"; "unless"].

(** The unit [formatDuration] counts a value in. *)
Definition formatUnit (ms : Z) : Z :=
  if (ms >=? 86400000)%Z then 86400000
  else if (ms >=? 3600000)%Z then 3600000
  else if (ms >=? 60000)%Z then 60000
  else if (ms >=? 1000)%Z then 1000
  else 1.

(** The trees of [a + b], [round(x, 2)], [topk(5, x)] and [(up)], and a
    unary expression whose sign is a direct child of kind Sub. *)
Definition plusQuery : string := "a + b".

Definition plusTree : SyntaxNode :=
  branch "BinaryExpr" 0 5
    [branch "VectorSelector" 0 1 [leaf "Identifier" 0 1];
     leaf "Add" 2 3;
     branch "VectorSelector" 4 5 [leaf "Identifier" 4 5]].

Definition negQuery : string := "-x".

Definition negTree : SyntaxNode :=
  branch "UnaryExpr" 0 2
    [leaf "Sub" 0 1;
     branch "VectorSelector" 1 2 [leaf "Identifier" 1 2]].

Definition callQuery : string := "round(x, 2)".

Definition callTree : SyntaxNode :=
  branch "FunctionCall" 0 11
    [branch "FunctionIdentifier" 0 5 [leaf "Round" 0 5];
     branch "FunctionCallBody" 5 11
       [branch "VectorSelector" 6 7 [leaf "Identifier" 6 7];
        leaf "NumberDurationLiteral" 9 10]].

Definition topkQuery : string := "topk(5, x)".

Definition topkTree : SyntaxNode :=
  branch "AggregateExpr" 0 10
    [branch "AggregateOp" 0 4 [leaf "Topk" 0 4];
     branch "FunctionCallBody" 4 10
       [leaf "NumberDurationLiteral" 5 6;
        branch "VectorSelector" 8 9 [leaf "Identifier" 8 9]]].

Definition parenQuery : string := "(up)".

Definition parenTree : SyntaxNode :=
  branch "ParenExpr" 0 4
    [branch "VectorSelector" 1 3 [leaf "Identifier" 1 3]].

Definition groupingTree : SyntaxNode :=
  branch "GroupingLabels" 7 15 [leaf "LabelName" 8 14].

(** [k] is what [buildAST] gives for a node strictly below [node]. *)
Definition builtBelow (query : string) (node : SyntaxNode) (k : ParsedNode) : Prop :=
  exists c, InTree c node /\ height c < height node /\ k = buildAST query c.

(** * Lemmas *)

(** ** Rounding and arithmetic of numbers *)

Lemma two53_le_max : (2 ^ 53 <= maxDouble)%Z.
Proof. vm_compute. discriminate. Qed.

Lemma fl_small z : (Z.abs z < 2 ^ 53)%Z -> fl z = Num z.
Proof.
  intros H. unfold fl, round53.
  destruct (Z.ltb_spec (Z.abs z) (2 ^ 53)) as [_|H']; [|lia].
  pose proof two53_le_max.
  destruct (Z.ltb_spec maxDouble (Z.abs z)) as [H''|_]; [lia|].
  f_equal. destruct z; reflexivity.
Qed.

Lemma round_half_even_ge a b : (a / b <= round_half_even a b)%Z.
Proof.
  unfold round_half_even.
  destruct (2 * (a mod b) <? b)%Z; [lia|].
  destruct (b <? 2 * (a mod b))%Z; [lia|].
  destruct (Z.even (a / b)); lia.
Qed.

Lemma round53_pos z : (0 < z)%Z -> (0 < round53 z)%Z.
Proof.
  intros H. unfold round53.
  destruct (Z.ltb_spec z (2 ^ 53)) as [_|Hge]; [exact H|].
  set (ulp := (2 ^ (Z.log2 z - 52))%Z).
  assert (Hl : (53 <= Z.log2 z)%Z) by (apply Z.log2_le_pow2; lia).
  assert (Hu : (0 < ulp)%Z) by (apply Z.pow_pos_nonneg; lia).
  assert (Hle : (ulp <= z)%Z).
  { apply Z.le_trans with (2 ^ Z.log2 z)%Z; [|apply Z.log2_spec; lia].
    apply Z.pow_le_mono_r; lia. }
  pose proof (round_half_even_ge z ulp) as Hr.
  assert (1 <= z / ulp)%Z by (apply Z.div_le_lower_bound; lia).
  nia.
Qed.

Lemma fl_positive z : (0 < z)%Z -> positive (fl z).
Proof.
  intros H. unfold fl.
  replace (Z.abs z) with z by lia.
  pose proof (round53_pos z H) as Hp.
  destruct (maxDouble <? round53 z)%Z.
  - destruct (Z.ltb_spec z 0); [lia|exact I].
  - cbn [positive]. replace (Z.sgn z) with 1%Z by lia. lia.
Qed.

Lemma fl_nonneg z : (0 <= z)%Z -> nonneg (fl z).
Proof.
  intros H. destruct (Z.eq_dec z 0%Z) as [->|N];
    [rewrite fl_small by reflexivity; exact (Z.le_refl 0%Z)|].
  pose proof (fl_positive z ltac:(lia)) as Hp.
  destruct (fl z); cbn in *; try lia; exact Hp.
Qed.

Lemma js_mul_add total v f :
  (0 <= total)%Z -> (0 <= v)%Z -> (1 <= f)%Z -> (total + v * f < 2 ^ 53)%Z ->
  js_add (Value (Num total)) (js_mul (Value (fl v)) (Value (Num f))) =
  Value (Num (total + v * f)).
Proof.
  intros Ht Hv Hf Hb.
  rewrite (fl_small v) by nia. cbn [js_mul].
  rewrite (fl_small (v * f)) by nia. cbn [js_add].
  rewrite (fl_small (total + v * f)) by nia. reflexivity.
Qed.

Lemma js_mul_nonneg v f :
  (0 <= v)%Z -> (0 <= f)%Z -> nonnegative (js_mul (Value (fl v)) (Value (Num f))).
Proof.
  intros Hv Hf. pose proof (fl_nonneg v Hv) as Hn.
  destruct (fl v) as [p| |]; cbn [js_mul nonnegative nonneg] in *.
  - apply fl_nonneg. nia.
  - destruct (Z.eqb_spec f 0); [exact I|].
    destruct (Z.ltb_spec 0 f); [exact I|lia].
  - destruct Hn.
Qed.

Lemma js_add_nonneg a b : nonnegative a -> nonnegative b -> nonnegative (js_add a b).
Proof.
  destruct a as [[p| |]|], b as [[q| |]|]; cbn [js_add nonnegative nonneg];
    try tauto.
  intros Hp Hq. apply fl_nonneg. lia.
Qed.

Lemma or_numeric_positive t d : nonnegative t -> positive d -> positive (or_numeric t d).
Proof.
  destruct t as [[z| |]|]; cbn [or_numeric js_truthy nonnegative nonneg positive negb];
    try tauto.
  intros Hz Hd. destruct (Z.eqb_spec z 0); cbn [negb positive]; [exact Hd|lia].
Qed.

Section Quotient.
Local Open Scope Z_scope.

Lemma round_half_even_cases a b :
  round_half_even a b = a / b \/
  (round_half_even a b = a / b + 1 /\ b <= 2 * (a mod b)).
Proof.
  unfold round_half_even.
  destruct (Z.ltb_spec (2 * (a mod b)) b); [now left|].
  destruct (Z.ltb_spec b (2 * (a mod b))); [right; split; lia|].
  destruct (Z.even (a / b)); [now left|right; split; lia].
Qed.

(** Rounding the quotient never reaches the next integer when the
    divisor is below twice the scale. *)
Lemma scaled_quotient p q K :
  0 < q -> 0 < K -> q < 2 * K -> 0 <= p ->
  (p / q) * K <= round_half_even (p * K) q < (p / q + 1) * K.
Proof.
  intros Hq HK HqK Hp.
  pose proof (Z.div_mod p q ltac:(lia)) as Ep.
  pose proof (Z.mod_pos_bound p q Hq) as Bp.
  pose proof (Z.div_mod (p * K) q ltac:(lia)) as En.
  pose proof (Z.mod_pos_bound (p * K) q Hq) as Bn.
  set (Q := p / q) in *. set (R := p mod q) in *.
  set (a := p * K / q) in *. set (b := (p * K) mod q) in *.
  assert (Ha1 : Q * K <= a) by nia.
  assert (Ha2 : a < (Q + 1) * K) by nia.
  destruct (round_half_even_cases (p * K) q) as [->|[-> Hb]]; fold a.
  - lia.
  - fold b in Hb. split; [lia|].
    destruct (Z.eq_dec a ((Q + 1) * K - 1)) as [E|N]; [|lia].
    exfalso. nia.
Qed.

Lemma floor_quotient_small p q :
  0 < q <= p -> p < 2 ^ 53 -> floor_quotient p q = p / q.
Proof.
  intros [Hq Hqp] Hp. unfold floor_quotient, quotient53.
  destruct (Z.eqb_spec p 0); [lia|].
  replace (Z.abs p) with p by lia.
  pose proof (Z.log2_spec p ltac:(lia)) as [Lp1 Lp2].
  pose proof (Z.log2_spec q Hq) as [Lq1 Lq2].
  pose proof (Z.log2_nonneg q) as Lq0.
  assert (Lpq : Z.log2 q <= Z.log2 p) by (apply Z.log2_le_mono; lia).
  assert (Lp53 : Z.log2 p < 53) by (apply Z.log2_lt_pow2; lia).
  set (e0 := Z.log2 p - Z.log2 q).
  assert (He0 : 0 <= e0) by (unfold e0; lia).
  destruct (Z.leb_spec 0 e0) as [_|]; [|lia].
  set (e := if p <? q * 2 ^ e0 then e0 - 1 else e0).
  assert (He : 0 <= e <= 52 /\ q * 2 ^ e <= p).
  { unfold e. destruct (Z.ltb_spec p (q * 2 ^ e0)) as [Hb|Hb].
    - assert (e0 <> 0) by (intros E; rewrite E in Hb; simpl in Hb; lia).
      split; [unfold e0 in *; lia|].
      assert (2 ^ (Z.log2 q + 1) * 2 ^ (e0 - 1) = 2 ^ Z.log2 p)
        by (rewrite <- Z.pow_add_r by lia; f_equal; unfold e0; lia).
      assert (0 < 2 ^ (e0 - 1)) by (apply Z.pow_pos_nonneg; lia).
      nia.
    - split; [unfold e0 in *; lia|lia]. }
  destruct He as [[He1 He2] He3].
  set (k := 52 - e). assert (Hk : 0 <= k) by (unfold k; lia).
  destruct (Z.leb_spec 0 k) as [_|]; [|lia].
  set (K := 2 ^ k).
  assert (HK : 0 < K) by (apply Z.pow_pos_nonneg; lia).
  assert (HeK : 2 ^ e * (2 * K) = 2 ^ 53).
  { unfold K. change 2 with (2 ^ 1) at 2.
    rewrite <- !Z.pow_add_r by lia. f_equal. unfold k. lia. }
  assert (Hpe : 0 < 2 ^ e) by (apply Z.pow_pos_nonneg; lia).
  assert (HqK : q < 2 * K) by nia.
  pose proof (scaled_quotient p q K Hq HK HqK ltac:(lia)) as [B1 B2].
  destruct (Z.leb_spec k 0) as [Hk0|Hk0].
  - assert (k = 0) by lia. assert (K = 1) by (unfold K; now replace k with 0).
    replace (- k) with 0 by lia. replace (Z.sgn p) with 1 by lia.
    change (2 ^ 0) with 1. rewrite Z.mul_1_l, Z.mul_1_r. fold K. nia.
  - destruct (Z.ltb_spec 0 p); [|lia]. fold K.
    symmetry. apply Z.div_unique with (round_half_even (p * K) q - p / q * K); lia.
Qed.

End Quotient.

(** ** The duration regex *)



Lemma strip_prefix_digit p c s :
  p <> [] -> Forall (fun a => is_digit a = false) p -> is_digit c = true ->
  strip_prefix p (c :: s) = None.
Proof.
  intros Hp Hf Hc. destruct p as [|a p]; [congruence|].
  simpl. inversion Hf; subst.
  destruct (Ascii.eqb a c) eqn:E; [|reflexivity].
  apply Ascii.eqb_eq in E. congruence.
Qed.

Lemma rmatch_units_digit c s : is_digit c = true -> rmatch duration_group2 (c :: s) = [].
Proof.
  intros Hc. unfold duration_group2. cbn [rmatch].
  rewrite !strip_prefix_digit; auto; try discriminate;
    repeat constructor.
Qed.


Lemma hd_error_app {A} (l1 l2 : list A) :
  hd_error (l1 ++ l2) = match hd_error l1 with Some x => Some x | None => hd_error l2 end.
Proof. destruct l1; reflexivity. Qed.

Lemma hd_error_map {A B} (f : A -> B) (l : list A) :
  hd_error (map f l) = option_map f (hd_error l).
Proof. destruct l; reflexivity. Qed.

Lemma digit_span_nil s r : digit_span s = ([], r) -> r = s /\ starts_with_digit s = false.
Proof.
  destruct s as [|c s]; simpl.
  - intros [= <-]. auto.
  - destruct (is_digit c) eqn:E.
    + destruct (digit_span s). discriminate.
    + intros [= <-]. auto.
Qed.

Lemma digit_span_cons s d ds r :
  digit_span s = (d :: ds, r) -> exists s', s = d :: s' /\ is_digit d = true /\ digit_span s' = (ds, r).
Proof.
  destruct s as [|c s]; simpl; [discriminate|].
  destruct (is_digit c) eqn:E; [|discriminate].
  destruct (digit_span s) as [ds' r'] eqn:E'.
  intros [= -> -> ->]. eauto.
Qed.

Lemma plus_digits s : forall fuel pre,
  length s <= fuel ->
  hd_error (flat_map with_units
              (map (fun '(m, s1) => (pre ++ m, s1)) (plus_iter (rmatch RDigit) fuel s))) =
  match digit_span s with
  | ([], _) => None
  | (ds, r) =>
      option_map (fun '(m2, s2) => (pre ++ ds, m2, s2)) (hd_error (rmatch duration_group2 r))
  end.
Proof.
  induction s as [|c s IH]; intros fuel pre Hf.
  - destruct fuel; reflexivity.
  - destruct fuel as [|fuel]; [simpl in Hf; lia|].
    cbn [plus_iter rmatch digit_span].
    destruct (is_digit c) eqn:Hc; [|reflexivity].
    cbn [flat_map]. rewrite app_nil_r.
    replace (length s <? length (c :: s))%nat with true
      by (symmetry; apply Nat.ltb_lt; simpl; lia).
    rewrite map_app, map_map, flat_map_app, hd_error_app.
    rewrite (map_ext _ (fun '(m, s1) => ((pre ++ [c]) ++ m, s1)))
      by (intros [m s1]; simpl; now rewrite <- app_assoc).
    rewrite IH by (simpl in Hf; lia).
    destruct (digit_span s) as [[|d ds] r] eqn:Hs.
    + apply digit_span_nil in Hs as [-> _].
      cbn [map flat_map with_units]. rewrite app_nil_r, !hd_error_map.
      destruct (hd_error (rmatch duration_group2 s)) as [[m2 s2]|]; reflexivity.
    + destruct (hd_error (rmatch duration_group2 r)) as [[m2 s2]|] eqn:Hu; cbn [option_map].
      * now rewrite <- app_assoc.
      * apply digit_span_cons in Hs as (s' & -> & Hd & _).
        cbn [map flat_map with_units]. now rewrite rmatch_units_digit.
Qed.

Lemma units_first_token r :
  hd_error (rmatch duration_group2 r) =
  option_map (fun '(u, r') => (list_ascii_of_string u, r')) (first_token unit_tokens r).
Proof.
  unfold duration_group2, unit_tokens. cbn [rmatch first_token].
  repeat (match goal with
          | |- context [strip_prefix ?p r] => destruct (strip_prefix p r); [reflexivity|]
          end; cbn [app]).
  reflexivity.
Qed.

Lemma match_here_spec s :
  match_here s =
  match digit_span s with
  | ([], _) => None
  | (ds, r) =>
      option_map (fun '(u, r') => (ds, list_ascii_of_string u, r'))
                 (first_token unit_tokens r)
  end.
Proof.
  unfold match_here, duration_group1.
  change (rmatch (RPlus RDigit) s) with (plus_iter (rmatch RDigit) (length s) s).
  pose proof (plus_digits s (length s) [] (le_n _)) as H.
  rewrite (map_ext _ (fun x => x)) in H by (intros [m s1]; reflexivity).
  rewrite map_id in H. unfold with_units in H. rewrite H.
  destruct (digit_span s) as [[|d ds] r]; [reflexivity|].
  rewrite units_first_token.
  destruct (first_token unit_tokens r) as [[u r']|]; reflexivity.
Qed.

Lemma strip_prefix_Some p : forall s r, strip_prefix p s = Some r -> s = p ++ r.
Proof.
  induction p as [|a p IH]; intros s r; simpl.
  - now intros [= ->].
  - destruct s as [|b s]; [discriminate|].
    destruct (Ascii.eqb a b) eqn:E; [|discriminate].
    apply Ascii.eqb_eq in E as ->. intros H. now rewrite (IH _ _ H).
Qed.

Lemma first_token_Some toks : forall s u r,
  first_token toks s = Some (u, r) -> In u toks /\ s = list_ascii_of_string u ++ r.
Proof.
  induction toks as [|t toks IH]; intros s u r; simpl; [discriminate|].
  destruct (strip_prefix (list_ascii_of_string t) s) as [r0|] eqn:E.
  - intros [= <- <-]. split; [now left|]. now apply strip_prefix_Some.
  - intros H. destruct (IH _ _ _ H). auto.
Qed.

Lemma units_lookup u :
  In u unit_tokens -> or_number (units !! u) 0 = unitMilliseconds u.
Proof.
  unfold unit_tokens. simpl.
  intros [<-|[<-|[<-|[<-|[<-|[<-|[<-|[]]]]]]]]; vm_compute; reflexivity.
Qed.

Lemma digit_span_app s : forall ds r,
  digit_span s = (ds, r) ->
  s = ds ++ r /\ Forall (fun c => is_digit c = true) ds /\ starts_with_digit r = false.
Proof.
  induction s as [|c s IH]; intros ds r; simpl.
  - intros [= <- <-]. auto.
  - destruct (is_digit c) eqn:E.
    + destruct (digit_span s) as [ds' r'] eqn:E'. intros [= <- <-].
      destruct (IH _ _ eq_refl) as (-> & Hf & Hr). auto.
    + intros [= <- <-]. simpl. auto.
Qed.


Lemma go_span s : forall acc ds r,
  digit_span s = (ds, r) ->
  durationMatches_go acc s =
  match ds with
  | [] => durationMatches_go acc s
  | _ => durationMatches_go (Some (parseInt_go (acc_value acc) ds)) r
  end.
Proof.
  induction s as [|c s IH]; intros acc ds r; simpl.
  - now intros [= <- <-].
  - destruct (is_digit c) eqn:E.
    + destruct (digit_span s) as [ds' r'] eqn:E'. intros [= <- <-].
      rewrite (IH _ _ _ eq_refl). simpl. rewrite E.
      destruct ds' as [|d ds'].
      * apply digit_span_nil in E' as [-> _]. reflexivity.
      * reflexivity.
    + now intros [= <- <-].
Qed.


Lemma go_after_number n r :
  starts_with_digit r = false ->
  durationMatches_go (Some n) r =
  match first_token unit_tokens r with
  | Some (u, r') => (n, u) :: durationMatches_go None r'
  | None => durationMatches_go None r
  end.
Proof.
  destruct r as [|c r1]; [reflexivity|].
  simpl starts_with_digit. intros Hc.
  cbn [durationMatches_go]. rewrite Hc.
  destruct (first_token unit_tokens (c :: r1)) as [[u r']|] eqn:E; [|reflexivity].
  apply first_token_Some in E as [Hin Heq].
  f_equal. unfold unit_tokens in Hin. simpl in Hin.
  destruct Hin as [<-|[<-|[<-|[<-|[<-|[<-|[<-|[]]]]]]]];
    simpl in Heq; injection Heq as -> ->; reflexivity.
Qed.

Lemma search_from_eq s i :
  search_from s i =
  match match_here s with
  | Some (m1, m2, _) =>
      Some (mkRegexMatch (string_of_list_ascii m1) (string_of_list_ascii m2)
                         (i + length m1 + length m2))
  | None => match s with [] => None | _ :: s' => search_from s' (S i) end
  end.
Proof. destruct s; reflexivity. Qed.

Lemma search_skip_digits s : forall i ds r,
  digit_span s = (ds, r) ->
  first_token unit_tokens r = None ->
  search_from s i = search_from r (i + length ds).
Proof.
  induction s as [|c s IH]; intros i ds r Hs Hu.
  - simpl in Hs. injection Hs as <- <-. reflexivity.
  - pose proof Hs as Hs0. simpl in Hs. destruct (is_digit c) eqn:E.
    + destruct (digit_span s) as [ds' r'] eqn:E'. injection Hs as <- <-.
      rewrite search_from_eq, match_here_spec, Hs0, Hu.
      cbn [option_map]. rewrite (IH (S i) ds' r' eq_refl Hu).
      simpl. f_equal. lia.
    + injection Hs as <- <-. simpl length. now rewrite Nat.add_0_r.
Qed.

Lemma skipn_cons_eq {A} (l : list A) : forall i c s,
  skipn i l = c :: s -> skipn (S i) l = s.
Proof.
  induction l as [|a l IH]; intros i c s.
  - destruct i; discriminate.
  - destruct i; simpl.
    + now intros [= _ ->].
    + apply IH.
Qed.

Lemma skipn_app_eq {A} (l : list A) : forall i p s,
  skipn i l = p ++ s -> skipn (i + length p) l = s.
Proof.
  intros i p. revert i. induction p as [|a p IH]; intros i s H.
  - simpl in *. now rewrite Nat.add_0_r.
  - simpl in H. apply skipn_cons_eq in H. apply IH in H.
    simpl. now rewrite Nat.add_succ_r.
Qed.

Lemma loop_same_exec fuel str i j total :
  regex_exec str i = regex_exec str j ->
  parseDuration_loop fuel str i total = parseDuration_loop fuel str j total.
Proof. destruct fuel; simpl; [reflexivity|]. now intros ->. Qed.

Lemma length_list_ascii s : length (list_ascii_of_string s) = String.length s.
Proof. induction s; simpl; congruence. Qed.

Lemma digit_value_nonneg c : is_digit c = true -> (0 <= digit_value c)%Z.
Proof.
  unfold is_digit, digit_value. intros H.
  apply andb_prop in H as [H _]. apply Nat.leb_le in H. lia.
Qed.

Lemma parseInt_go_nonneg s : forall acc, (0 <= acc)%Z -> (0 <= parseInt_go acc s)%Z.
Proof.
  induction s as [|c s IH]; intros acc Hacc; cbn [parseInt_go]; [exact Hacc|].
  destruct (is_digit c) eqn:E; [|exact Hacc].
  apply IH. pose proof (digit_value_nonneg c E). lia.
Qed.

Lemma unitMilliseconds_pos u : In u unit_tokens -> (0 < unitMilliseconds u)%Z.
Proof.
  unfold unit_tokens. simpl.
  intros [<-|[<-|[<-|[<-|[<-|[<-|[<-|[]]]]]]]]; reflexivity.
Qed.

Lemma unitMilliseconds_nonneg u : (0 <= unitMilliseconds u)%Z.
Proof.
  unfold unitMilliseconds.
  repeat match goal with
         | |- context [String.eqb u ?k] => destruct (String.eqb u k); [discriminate|]
         end.
  discriminate.
Qed.

Lemma go_nonneg n : forall s acc,
  length s <= n -> (0 <= acc_value acc)%Z ->
  Forall (fun '(v, _) => (0 <= v)%Z) (durationMatches_go acc s).
Proof.
  induction n as [|n IH]; intros s acc Hn Hacc.
  - destruct s; [constructor|simpl in Hn; lia].
  - destruct s as [|c r]; [constructor|]. simpl in Hn.
    cbn [durationMatches_go].
    destruct (is_digit c) eqn:Hc.
    + apply IH; [lia|]. cbn [acc_value].
      pose proof (digit_value_nonneg c Hc). fold (acc_value acc). lia.
    + destruct acc as [v|]; [|apply IH; [lia|reflexivity]].
      destruct (first_token unit_tokens (c :: r)) as [[u r0]|];
        [|apply IH; [lia|reflexivity]].
      constructor; [exact Hacc|].
      destruct (Nat.eqb (String.length u) 2); [|apply IH; [lia|reflexivity]].
      destruct r as [|c' r']; [constructor|].
      apply IH; [simpl in Hn; lia|reflexivity].
Qed.

Lemma sumMatches_nonneg l :
  Forall (fun '(v, _) => (0 <= v)%Z) l -> (0 <= sumMatches l)%Z.
Proof.
  induction 1 as [|[v u] l Hv _ IH]; [reflexivity|].
  cbn [sumMatches fold_right]. fold (sumMatches l).
  pose proof (unitMilliseconds_nonneg u). nia.
Qed.

Lemma sum_go_nonneg s : (0 <= sumMatches (durationMatches_go None s))%Z.
Proof. apply sumMatches_nonneg, (go_nonneg (length s)); [lia|reflexivity]. Qed.

(** As long as the sum stays below [2 ^ 53] nothing is rounded, and the
    loop adds up the matches of the scan. *)
Lemma loop_spec n : forall s str i fuel total,
  length s <= n ->
  skipn i (list_ascii_of_string str) = s ->
  length s < fuel ->
  (0 <= total)%Z ->
  (total + sumMatches (durationMatches_go None s) < 2 ^ 53)%Z ->
  parseDuration_loop fuel str i (Value (Num total)) =
  Value (Num (total + sumMatches (durationMatches_go None s))).
Proof.
  induction n as [|n IH]; intros s str i fuel total Hn Hs Hf Ht Hb.
  - destruct s; [|simpl in Hn; lia].
    destruct fuel; [lia|]. simpl. unfold regex_exec. rewrite Hs. simpl.
    now rewrite Z.add_0_r.
  - destruct (digit_span s) as [ds r] eqn:Hspan.
    pose proof (go_span s None ds r Hspan) as Hgo.
    destruct ds as [|d ds].
    + destruct (digit_span_nil _ _ Hspan) as [-> Hd].
      destruct s as [|c s1].
      * destruct fuel; [lia|]. simpl. unfold regex_exec. rewrite Hs. simpl.
        now rewrite Z.add_0_r.
      * simpl in Hd. cbn [durationMatches_go] in Hb |- *. rewrite Hd in Hb |- *.
        rewrite (loop_same_exec fuel str i (S i)).
        -- apply IH; [simpl in Hn; lia | now apply skipn_cons_eq in Hs
                     | simpl in Hf; lia | exact Ht | exact Hb].
        -- unfold regex_exec. rewrite Hs, (skipn_cons_eq _ _ _ _ Hs).
           rewrite search_from_eq, match_here_spec, Hspan. reflexivity.
    + destruct (digit_span_app _ _ _ Hspan) as (Hsplit & Hdig & Hr).
      rewrite Hgo, (go_after_number _ _ Hr) in Hb |- *.
      destruct (first_token unit_tokens r) as [[u r']|] eqn:Hu.
      * destruct (first_token_Some _ _ _ _ Hu) as [Hin Hr'].
        destruct fuel; [lia|]. cbn [parseDuration_loop]. unfold regex_exec.
        rewrite Hs, search_from_eq, match_here_spec, Hspan, Hu. cbn [option_map].
        cbn [capture1 capture2 lastIndex].
        rewrite string_of_list_ascii_of_string, (units_lookup _ Hin).
        unfold parseInt. rewrite list_ascii_of_string_of_list_ascii.
        assert (Hlen : length s = length (d :: ds) + length (list_ascii_of_string u) + length r')
          by (rewrite Hsplit, Hr', !length_app; lia).
        cbn [sumMatches fold_right acc_value] in Hb |- *.
        fold (sumMatches (durationMatches_go None r')) in Hb |- *.
        pose proof (sum_go_nonneg r') as Hrest.
        pose proof (parseInt_go_nonneg (d :: ds) 0 (Z.le_refl 0)) as Hv.
        pose proof (unitMilliseconds_pos u Hin) as Hf1.
        set (v := parseInt_go 0 (d :: ds)) in *.
        rewrite (js_mul_add total v (unitMilliseconds u)) by nia.
        rewrite (IH r').
        -- now rewrite Z.add_assoc.
        -- simpl in Hlen. lia.
        -- rewrite <- Nat.add_assoc, <- length_app. apply skipn_app_eq.
           rewrite Hs, Hsplit, Hr'. now rewrite app_assoc.
        -- simpl in Hlen. lia.
        -- nia.
        -- lia.
      * assert (Hlen : length s = length (d :: ds) + length r)
          by (rewrite Hsplit, length_app; lia).
        rewrite (loop_same_exec fuel str i (i + length (d :: ds))).
        -- apply IH; [simpl in Hlen; lia | | simpl in Hlen; lia | exact Ht | exact Hb].
           apply skipn_app_eq. now rewrite Hs.
        -- unfold regex_exec. rewrite Hs.
           rewrite (skipn_app_eq _ i (d :: ds) r) by now rewrite Hs.
           now apply search_skip_digits.
Qed.

Lemma parseDuration_refines (s : string) :
  (sumMatches (durationMatches s) < 2 ^ 53)%Z ->
  parseDuration s = Num (spec_parseDuration s).
Proof.
  intros Hb. unfold parseDuration, spec_parseDuration, durationMatches in *.
  rewrite (loop_spec (String.length s) (list_ascii_of_string s) s 0).
  - cbn [Z.add or_numeric js_truthy].
    destruct (_ =? 0)%Z; reflexivity.
  - now rewrite length_list_ascii.
  - reflexivity.
  - rewrite length_list_ascii. lia.
  - lia.
  - exact Hb.
Qed.

(** ** Unfolding [buildAST] *)

Lemma height_eq n :
  height n = S (fold_right (fun c h => Nat.max (height c) h) 0 (childNodes n)).
Proof.
  destruct n as [k g e a b cs]. reflexivity.
Qed.

Lemma height_child n c : In c (childNodes n) -> height c < height n.
Proof.
  rewrite (height_eq n). generalize (childNodes n) as cs.
  induction cs as [|c' cs IH]; simpl; [tauto|].
  intros [->|H]; [lia|]. specialize (IH H). lia.
Qed.

Lemma height_pos n : 0 < height n.
Proof. rewrite height_eq. lia. Qed.

Lemma getChild_In n k c : getChild n k = Some c -> In c (childNodes n).
Proof. unfold getChild. intros H. now apply find_some in H. Qed.

Lemma firstChild_In n c : firstChild n = Some c -> In c (childNodes n).
Proof. unfold firstChild. destruct (childNodes n); simpl; [discriminate|]. intros [= ->]. now left. Qed.

Lemma fold_left_ext_in {A B} (f g : A -> B -> A) (l : list B) : forall a,
  (forall a x, In x l -> f a x = g a x) -> fold_left f l a = fold_left g l a.
Proof.
  induction l as [|x l IH]; intros a H; simpl; [reflexivity|].
  rewrite H by now left. apply IH. intros; apply H; now right.
Qed.

Section Build.
Variable query : string.

Lemma buildAST_step_ext (f g : SyntaxNode -> ParsedNode) (node : SyntaxNode) :
  (forall c, height c < height node -> f c = g c) ->
  buildAST_step query f node = buildAST_step query g node.
Proof.
  intros Hfg.
  assert (Hc : forall c, In c (childNodes node) -> f c = g c)
    by (intros c Hin; apply Hfg, height_child, Hin).
  assert (Hgc : forall b c, In b (childNodes node) -> In c (childNodes b) -> f c = g c).
  { intros b c Hb Hin. apply Hfg.
    pose proof (height_child _ _ Hb). pose proof (height_child _ _ Hin). lia. }
  unfold buildAST_step.
  destruct (_ || _)%bool.
  { destruct (firstChild node) eqn:E; [|reflexivity]. apply Hc, firstChild_In, E. }
  destruct (String.eqb _ "AggregateExpr").
  { f_equal. destruct (getChild node "FunctionCallBody") as [body|] eqn:Eb; [|reflexivity].
    destruct (firstChild body) as [child|] eqn:Ec; [|reflexivity].
    destruct (isExpressionNode child); [|reflexivity].
    f_equal. eapply Hgc; eauto using getChild_In, firstChild_In. }
  destruct (String.eqb _ "FunctionCall").
  { f_equal. destruct (getChild node "FunctionCallBody") as [body|] eqn:Eb; [|reflexivity].
    apply fold_left_ext_in. intros a x Hx.
    destruct (isExpressionNode x); [|reflexivity].
    do 2 f_equal. eapply Hgc; eauto using getChild_In. }
  destruct (String.eqb _ "BinaryExpr").
  { erewrite fold_left_ext_in; [reflexivity|].
    intros [cs o] x Hx. destruct (isExpressionNode x); [|reflexivity].
    now rewrite (Hc x Hx). }
  destruct (String.eqb _ "VectorSelector"); [reflexivity|].
  destruct (String.eqb _ "MatrixSelector").
  { destruct (getChild node "VectorSelector") eqn:Ev.
    - rewrite (Hc s) by eauto using getChild_In. reflexivity.
    - destruct (getChild node "FunctionCall") eqn:Ef; [|reflexivity].
      apply Hc; eauto using getChild_In. }
  destruct (String.eqb _ "SubqueryExpr").
  { destruct (getChild node "Expr") eqn:Ee; [|reflexivity].
    rewrite (Hc s) by eauto using getChild_In. reflexivity. }
  destruct (_ || _)%bool; [reflexivity|].
  destruct (String.eqb _ "StringLiteral"); [reflexivity|].
  destruct (String.eqb _ "ParenExpr").
  { destruct (getChild node "Expr") eqn:Ee; [|reflexivity].
    rewrite (Hc s) by eauto using getChild_In. reflexivity. }
  destruct (String.eqb _ "UnaryExpr").
  { erewrite fold_left_ext_in; [reflexivity|].
    intros [o cs] x Hx. destruct (_ || _)%bool; [reflexivity|].
    destruct (isExpressionNode x); [|reflexivity].
    now rewrite (Hc x Hx). }
  match goal with
  | |- match fold_left ?F ?l ?a with _ => _ end = match fold_left ?G _ _ with _ => _ end =>
      rewrite (fold_left_ext_in F G l a); [reflexivity|]
  end.
  intros a x Hx. destruct (isExpressionNode x); [|reflexivity].
  now rewrite (Hc x Hx).
Qed.

Lemma buildAST_fuel_irrel f1 : forall f2 node,
  height node <= f1 -> height node <= f2 ->
  buildAST_fuel query f1 node = buildAST_fuel query f2 node.
Proof.
  induction f1 as [|f1 IH]; intros f2 node H1 H2.
  - pose proof (height_pos node). lia.
  - destruct f2 as [|f2]; [pose proof (height_pos node); lia|].
    simpl. apply buildAST_step_ext. intros c Hc. apply IH; lia.
Qed.

Lemma buildAST_fuel_enough fuel node :
  height node <= fuel -> buildAST_fuel query fuel node = buildAST query node.
Proof. intros H. unfold buildAST. now apply buildAST_fuel_irrel. Qed.

Lemma buildAST_unfold node :
  buildAST query node = buildAST_step query (buildAST query) node.
Proof.
  unfold buildAST at 1. pose proof (height_pos node).
  destruct (height node) as [|h] eqn:E; [lia|].
  simpl. apply buildAST_step_ext. intros c Hc.
  apply buildAST_fuel_enough. lia.
Qed.
End Build.

(** ** Strings, tables and explanations *)

Lemma append_cons c (a b : string) : String c a +:+ b = String c (a +:+ b).
Proof. reflexivity. Qed.

Lemma append_nil (b : string) : "" +:+ b = b.
Proof. reflexivity. Qed.

Lemma append_assoc (a b c : string) : (a +:+ b) +:+ c = a +:+ (b +:+ c).
Proof. induction a as [|x a IH]; rewrite ?append_cons, ?append_nil; congruence. Qed.

Lemma append_empty_r (a : string) : a +:+ "" = a.
Proof. induction a as [|x a IH]; rewrite ?append_cons, ?append_nil; congruence. Qed.

Lemma js_join_fold sep l : forall k R,
  snd (fold_left
         (fun (st : nat * string) (x : string) =>
            let (k, R) := st in
            (S k, (if Nat.eqb k 0 then R else R +:+ sep) +:+ x))
         l (S k, R)) =
  match l with
  | [] => R
  | _ => R +:+ sep +:+ String.concat sep l
  end.
Proof.
  induction l as [|x l IH]; intros k R; [reflexivity|].
  cbn [fold_left Nat.eqb]. rewrite IH.
  destruct l as [|y l]; cbn [String.concat].
  - now rewrite append_assoc.
  - now rewrite ?append_assoc.
Qed.

Lemma js_join_concat sep l : js_join sep l = String.concat sep l.
Proof.
  unfold js_join. destruct l as [|x l]; [reflexivity|].
  cbn [fold_left Nat.eqb]. rewrite js_join_fold.
  destruct l; reflexivity.
Qed.


Lemma list_to_map_lookup {A} (l : list (string * A)) (k : string) :
  (list_to_map l : gmap string A) !! k = assoc_lookup l k.
Proof.
  induction l as [|[k' v] l IH]; simpl.
  - apply lookup_empty.
  - destruct (String.eqb k' k) eqn:E.
    + apply String.eqb_eq in E as ->. apply lookup_insert_eq.
    + apply String.eqb_neq in E. rewrite lookup_insert_ne by exact E. exact IH.
Qed.

Lemma eqb_flip (a b : string) : String.eqb a b = String.eqb b a.
Proof. apply String.eqb_sym. Qed.

Lemma js_lookup_own (table : gmap string string) k :
  ~ In k inheritedNames -> js_lookup table k = table !! k.
Proof.
  intros H. unfold js_lookup. destruct (table !! k); [reflexivity|].
  destruct (existsb (String.eqb k) inheritedNames) eqn:E; [|reflexivity].
  apply existsb_exists in E as (x & Hx & E). apply String.eqb_eq in E. now subst.
Qed.

Lemma js_lookup_found (table : gmap string string) k v :
  table !! k = Some v -> js_lookup table k = Some v.
Proof. intros H. unfold js_lookup. now rewrite H. Qed.

Lemma inherited_plain : ~ In "" inheritedNames /\ ~ In "undefined" inheritedNames.
Proof.
  split; intros H; cbn in H;
    repeat (destruct H as [H|H]; [discriminate H|]); exact H.
Qed.

Lemma aggregation_verb (o : option string) :
  ~ In (show_string o) inheritedNames ->
  or_string (js_lookup aggregationDescriptions (or_string o ""))
            ("applies " +:+ show_string o +:+ " to") =
  spec_aggregationVerb (show_string o).
Proof.
  intros Hin. destruct o as [[|c o]|]; [reflexivity| |reflexivity].
  cbn [or_string show_string] in *. rewrite (js_lookup_own _ _ Hin).
  unfold aggregationDescriptions. rewrite list_to_map_lookup.
  cbn [assoc_lookup]. unfold spec_aggregationVerb.
  rewrite !(eqb_flip (String c o)).
  repeat match goal with
         | |- context [String.eqb ?k (String c o)] =>
             destruct (String.eqb k (String c o)); [reflexivity|]
         end.
  reflexivity.
Qed.

Lemma spec_verb_unknown o :
  ~ In o aggregationOperators -> spec_aggregationVerb o = "applies " +:+ o +:+ " to".
Proof.
  intros H. unfold spec_aggregationVerb.
  repeat match goal with
         | |- context [String.eqb o ?k] =>
             let E := fresh "E" in
             destruct (String.eqb o k) eqn:E;
             [apply String.eqb_eq in E; subst o; exfalso; apply H; simpl; tauto|]
         end.
  reflexivity.
Qed.

Lemma explain_aggregation (ast : ParsedNode) :
  type ast = aggregation ->
  ~ In (show_string (op ast)) inheritedNames ->
  explainQuery ast =
  "This expression " +:+ spec_aggregationVerb (show_string (op ast)) +:+ " the values"
    +:+ spec_groupingClause (isTrue (without ast)) (itemsOf (grouping ast)).
Proof.
  intros Hty Hin. unfold explainQuery. rewrite Hty, (aggregation_verb _ Hin).
  rewrite !js_join_concat.
  destruct (grouping ast) as [[|g gs]|]; cbn [nonempty itemsOf spec_groupingClause].
  - now rewrite append_empty_r.
  - destruct (without ast) as [[|]|]; cbn [isTrue]; now rewrite !append_assoc.
  - now rewrite append_empty_r.
Qed.

Lemma describeMatcher_spec m : describeMatcher m = spec_renderMatcher m.
Proof. unfold describeMatcher, spec_renderMatcher. destruct (matcherType m); reflexivity. Qed.

Lemma explain_vectorSelector (ast : ParsedNode) :
  type ast = vectorSelector ->
  explainQuery ast =
  "Selects the metric " +:+ dq +:+ or_string (name ast) "(any)" +:+ dq
    +:+ spec_whereClause (itemsOf (matchers ast)).
Proof.
  intros Hty. unfold explainQuery. rewrite Hty, js_join_concat.
  rewrite (map_ext _ _ describeMatcher_spec).
  destruct (matchers ast) as [[|m ms]|]; cbn [nonempty itemsOf spec_whereClause].
  - now rewrite ?append_assoc, ?append_empty_r.
  - now rewrite ?append_assoc.
  - now rewrite ?append_assoc, ?append_empty_r.
Qed.















Lemma decimal_neg p : decimal (Z.neg p) = "-" +:+ decimal (Z.pos p).
Proof. reflexivity. Qed.

Lemma show_number_small z : (Z.abs z < 2 ^ 53)%Z -> show_number (Num z) = decimal z.
Proof.
  intros H. unfold show_number, show_double.
  destruct z as [|p|p]; [reflexivity| |].
  - change (Z.pos p =? 0)%Z with false. change (Z.pos p <? 0)%Z with false. cbv iota.
    destruct (Z.ltb_spec (Z.pos p) (2 ^ 53)); [reflexivity|lia].
  - change (Z.neg p =? 0)%Z with false. change (Z.neg p <? 0)%Z with true. cbv iota.
    change (- Z.neg p)%Z with (Z.pos p).
    destruct (Z.ltb_spec (Z.pos p) (2 ^ 53)); [reflexivity|lia].
Qed.



(** ** The matcher extractor and the error scan *)

Lemma substring_dropLast r : substring 0 (String.length r - 1) r = dropLast r.
Proof.
  induction r as [|c r IH]; [reflexivity|].
  destruct r as [|d r]; [reflexivity|].
  replace (String.length (String c (String d r)) - 1)
    with (S (String.length (String d r) - 1)) by (cbn [String.length]; lia).
  change (substring 0 (S (String.length (String d r) - 1)) (String c (String d r)))
    with (String c (substring 0 (String.length (String d r) - 1) (String d r))).
  rewrite IH. reflexivity.
Qed.

Lemma slice_stripQuotes s : js_slice s 1 (-1) = stripQuotes s.
Proof.
  unfold js_slice. cbn [Z.ltb Z.compare].
  destruct s as [|c r].
  - reflexivity.
  - cbn [stripQuotes]. rewrite <- substring_dropLast.
    cbn [String.length].
    replace (Z.to_nat (Z.min 1 (Z.of_nat (S (String.length r))))) with 1 by lia.
    cbn [substring]. f_equal. lia.
Qed.

Lemma matchTypeOf_spec t : matchTypeOf t = spec_operator (Some t).
Proof.
  unfold matchTypeOf, spec_operator, operatorTokens. cbn [find].
  rewrite !(String.eqb_sym t).
  repeat match goal with
         | |- context [String.eqb ?k t] => destruct (String.eqb k t); [reflexivity|]
         end.
  reflexivity.
Qed.

Lemma visit_spec query acc c :
  parseLabelMatchers_visit query acc c = acc ++ spec_matcherOf query c.
Proof.
  unfold parseLabelMatchers_visit, spec_matcherOf.
  destruct (includes matcherKinds (typeName c)); [|now rewrite app_nil_r].
  destruct (getChild c "LabelName"); [|now rewrite app_nil_r].
  destruct (getChild c "StringLiteral"); [|now rewrite app_nil_r].
  rewrite slice_stripQuotes.
  destruct (getChild c "MatchOp"); cbn [option_map]; [now rewrite matchTypeOf_spec|reflexivity].
Qed.

Lemma parseLabelMatchers_fold query l : forall acc,
  fold_left (parseLabelMatchers_visit query) l acc = acc ++ flat_map (spec_matcherOf query) l.
Proof.
  induction l as [|c l IH]; intros acc; cbn [fold_left flat_map].
  - now rewrite app_nil_r.
  - now rewrite IH, visit_spec, app_assoc.
Qed.

Lemma parseLabelMatchers_refines query node :
  parseLabelMatchers query node = spec_labelMatchers query node.
Proof. unfold parseLabelMatchers. now rewrite parseLabelMatchers_fold. Qed.

Lemma stripQuotes_quoted q1 q2 v : stripQuotes (String q1 (v +:+ String q2 "")) = v.
Proof.
  cbn [stripQuotes]. induction v as [|c v IH]; [reflexivity|].
  rewrite append_cons. cbn [dropLast]. rewrite IH.
  destruct v; reflexivity.
Qed.

Lemma SyntaxNode_height_ind (P : SyntaxNode -> Prop) :
  (forall n, (forall c, height c < height n -> P c) -> P n) -> forall n, P n.
Proof.
  intros H n. remember (height n) as h eqn:E.
  revert n E. induction h as [h IH] using lt_wf_ind.
  intros n ->. apply H. intros c Hc. exact (IH _ Hc c eq_refl).
Qed.

Lemma iterate_eq {S} (enter : SyntaxNode -> S -> S * bool) n st :
  iterate enter n st =
  let (st1, descend) := enter n st in
  if descend then fold_left (fun st c => iterate enter c st) (childNodes n) st1 else st1.
Proof. destruct n. reflexivity. Qed.


Lemma iterate_checkError n : forall st,
  iterate checkError n st = true <-> st = true \/ flagged n.
Proof.
  induction n as [n IH] using SyntaxNode_height_ind. intros st.
  rewrite iterate_eq. unfold checkError at 1.
  destruct (typeIsError n) eqn:En.
  - split; [intros _|reflexivity]. right. exists n. split; [constructor|exact En].
  - assert (Hfold : forall l st0, (forall c, In c l -> In c (childNodes n)) ->
              (fold_left (fun st c => iterate checkError c st) l st0 = true <->
               st0 = true \/ exists c, In c l /\ flagged c)).
    { induction l as [|c l IHl]; intros st0 Hl; cbn [fold_left].
      - split; [auto|]. intros [H|(c & [] & _)]. exact H.
      - rewrite IHl by (intros; apply Hl; now right).
        rewrite (IH c) by (apply height_child, Hl; now left).
        split.
        + intros [[H|H]|(c' & Hin & H)]; eauto.
          * right. exists c. split; [now left|exact H].
          * right. exists c'. split; [now right|exact H].
        + intros [H|(c' & [<-|Hin] & H)]; eauto. }
    rewrite Hfold by auto. split.
    + intros [H|(c & Hin & m & Hm & He)]; [now left|].
      right. exists m. split; [|exact He]. econstructor; eauto.
    + intros [H|(m & Hm & He)]; [now left|].
      right. inversion Hm; subst.
      * congruence.
      * eexists. split; [eassumption|]. exists m. auto.
Qed.

(** ** Durations are positive; the collecting loops *)

Lemma units_nonneg u : (0 <= or_number (units !! u) 0)%Z.
Proof.
  unfold units. rewrite list_to_map_lookup. cbn [assoc_lookup].
  repeat match goal with
         | |- context [String.eqb ?k u] => destruct (String.eqb k u); [vm_compute; discriminate|]
         end.
  vm_compute; discriminate.
Qed.

Lemma loop_nonneg fuel str : forall i total,
  nonnegative total -> nonnegative (parseDuration_loop fuel str i total).
Proof.
  induction fuel as [|fuel IH]; intros i total Ht; cbn [parseDuration_loop]; [exact Ht|].
  destruct (regex_exec str i) as [m|]; [|exact Ht].
  apply IH, js_add_nonneg; [exact Ht|].
  apply js_mul_nonneg; [|apply units_nonneg].
  apply parseInt_go_nonneg. lia.
Qed.

Lemma parseDuration_pos s : positive (parseDuration s).
Proof.
  unfold parseDuration. apply or_numeric_positive; [|reflexivity].
  apply loop_nonneg. exact (Z.le_refl 0%Z).
Qed.

Lemma parseDuration_default s : durationMatches s = [] -> parseDuration s = Num 300000.
Proof.
  intros H. rewrite parseDuration_refines by (rewrite H; reflexivity).
  unfold spec_parseDuration. now rewrite H.
Qed.

Section Collect.
Variable query : string.

Lemma collect_fold (self : SyntaxNode -> ParsedNode) l : forall acc,
  fold_left (fun children child =>
               if isExpressionNode child then children ++ [self child] else children)
            l acc =
  acc ++ map self (List.filter isExpressionNode l).
Proof.
  induction l as [|c l IH]; intros acc; cbn [fold_left List.filter].
  - now rewrite app_nil_r.
  - rewrite IH. destruct (isExpressionNode c); [|reflexivity].
    cbn [map]. now rewrite <- app_assoc.
Qed.

End Collect.

(** ** Ranges in the built tree *)



Lemma allRangesOK_intro a :
  rangeOK a ->
  Forall allRangesOK (itemsOf (children a)) ->
  Forall allRangesOK (itemsOf (args a)) ->
  allRangesOK a.
Proof.
  intros Ha Hc Hg m Hm. inversion Hm as [|? c cs E Hin Hsub|? c cs E Hin Hsub]; subst.
  - exact Ha.
  - rewrite E in Hc. cbn in Hc. rewrite List.Forall_forall in Hc. exact (Hc c Hin m Hsub).
  - rewrite E in Hg. cbn in Hg. rewrite List.Forall_forall in Hg. exact (Hg c Hin m Hsub).
Qed.

Lemma fold_left_invariant {S B} (I : S -> Prop) (f : S -> B -> S) (l : list B) : forall s,
  I s -> (forall s x, In x l -> I s -> I (f s x)) -> I (fold_left f l s).
Proof.
  induction l as [|x l IH]; intros s Hs Hf; cbn [fold_left]; [exact Hs|].
  apply IH; [apply Hf; [now left|exact Hs]|]. intros; apply Hf; [now right|assumption].
Qed.

Ltac node_ok :=
  apply allRangesOK_intro; cbn [itemsOf children args];
  [ intros Hty; try discriminate Hty | try apply List.Forall_nil | try apply List.Forall_nil ].

Section Ranges.
Variable query : string.

Lemma buildAST_ranges : forall node, allRangesOK (buildAST query node).
Proof.
  induction node as [node IH] using SyntaxNode_height_ind.
  assert (Hc : forall c, In c (childNodes node) -> allRangesOK (buildAST query c))
    by (intros c Hin; apply IH, height_child, Hin).
  assert (Hgc : forall b c, In b (childNodes node) -> In c (childNodes b) ->
                            allRangesOK (buildAST query c)).
  { intros b c Hb Hin. apply IH.
    pose proof (height_child _ _ Hb). pose proof (height_child _ _ Hin). lia. }
  rewrite buildAST_unfold. unfold buildAST_step.
  destruct (_ || _)%bool.
  { destruct (firstChild node) eqn:E; [apply Hc, firstChild_In, E|].
    unfold errorNode. node_ok. }
  destruct (String.eqb _ "AggregateExpr").
  { unfold aggregationNode. node_ok.
    destruct (getChild node "FunctionCallBody") as [body|] eqn:Eb; [|constructor].
    destruct (firstChild body) as [child|] eqn:Ec; [|constructor].
    destruct (isExpressionNode child); [|constructor].
    constructor; [|constructor].
    eapply Hgc; eauto using getChild_In, firstChild_In. }
  destruct (String.eqb _ "FunctionCall").
  { unfold callNode. node_ok.
    destruct (getChild node "FunctionCallBody") as [body|] eqn:Eb; [|constructor].
    rewrite collect_fold. cbn [app]. apply List.Forall_forall.
    intros a Ha. apply List.in_map_iff in Ha as (x & <- & Hx).
    apply List.filter_In in Hx as [Hx _]. eapply Hgc; eauto using getChild_In. }
  destruct (String.eqb _ "BinaryExpr").
  { match goal with
    | |- allRangesOK (let '(_, _) := fold_left ?F ?l ?s in _) =>
        pose proof (fold_left_invariant (fun st => Forall allRangesOK (fst st)) F l s) as Hinv;
        destruct (fold_left F l s) as [cs o]
    end.
    unfold binaryExprNode. node_ok. apply Hinv; [constructor|].
    intros [cs' o'] x Hx Hst. cbn [fst] in *.
    destruct (isExpressionNode x).
    - cbn [fst]. apply List.Forall_app. split; [exact Hst|]. constructor; [|constructor]. now apply Hc.
    - destruct (_ || _)%bool; exact Hst. }
  destruct (String.eqb _ "VectorSelector").
  { unfold vectorSelectorNode. node_ok. }
  destruct (String.eqb _ "MatrixSelector").
  { destruct (getChild node "VectorSelector") eqn:Ev.
    - unfold matrixSelectorNode. node_ok. right. eexists. split; [reflexivity|].
      destruct (or_node _ _); [apply parseDuration_pos|reflexivity].
    - destruct (getChild node "FunctionCall") eqn:Ef; [apply Hc; eauto using getChild_In|].
      unfold bareMatrixSelectorNode. node_ok. now left. }
  destruct (String.eqb _ "SubqueryExpr").
  { unfold subqueryNode. node_ok.
    destruct (getChild node "Expr") eqn:Ee; [|constructor].
    constructor; [|constructor].
    apply Hc; eauto using getChild_In. }
  destruct (_ || _)%bool.
  { unfold numberLiteralNode. node_ok. }
  destruct (String.eqb _ "StringLiteral").
  { unfold stringLiteralNode. node_ok. }
  destruct (String.eqb _ "ParenExpr").
  { unfold parenExprNode. node_ok.
    destruct (getChild node "Expr") eqn:Ee; [|constructor].
    constructor; [|constructor].
    apply Hc; eauto using getChild_In. }
  destruct (String.eqb _ "UnaryExpr").
  { match goal with
    | |- allRangesOK (let '(_, _) := fold_left ?F ?l ?s in _) =>
        pose proof (fold_left_invariant (fun st => Forall allRangesOK (snd st)) F l s) as Hinv;
        destruct (fold_left F l s) as [o cs]
    end.
    unfold unaryExprNode. node_ok. apply Hinv; [constructor|].
    intros [o' cs'] x Hx Hst. cbn [snd] in *.
    destruct (_ || _)%bool; [exact Hst|].
    destruct (isExpressionNode x); [|exact Hst].
    cbn [snd]. apply List.Forall_app. split; [exact Hst|]. constructor; [|constructor]. now apply Hc. }
  rewrite collect_fold. cbn [app].
  assert (Hall : Forall allRangesOK
                   (map (buildAST query) (List.filter isExpressionNode (childNodes node)))).
  { apply List.Forall_forall. intros a Ha. apply List.in_map_iff in Ha as (x & <- & Hx).
    apply List.filter_In in Hx as [Hx _]. now apply Hc. }
  destruct (map (buildAST query) (List.filter isExpressionNode (childNodes node)))
    as [|a [|b rest]].
  - unfold errorNode. node_ok.
  - now inversion Hall.
  - unfold errorNode. node_ok; exact Hall.
Qed.
End Ranges.

(** ** Shapes built for the selector kinds *)

Lemma includes_false_cons x k l :
  includes (k :: l) x = false -> String.eqb x k = false /\ includes l x = false.
Proof. unfold includes. cbn [existsb]. apply orb_false_elim. Qed.

Lemma buildAST_MatrixSelector (query : string) (node : SyntaxNode) :
  typeName node = "MatrixSelector" ->
  buildAST query node =
  match getChild node "VectorSelector" with
  | Some vs =>
      matrixSelectorNode (sliceOf query node)
        (name (buildAST query vs)) (matchers (buildAST query vs))
        (match or_node (getChild node "Duration")
                       (getChild node "NumberDurationLiteralInDurationContext") with
         | Some d => parseDuration (sliceOf query d)
         | None => 300000%Z
         end)
  | None =>
      match getChild node "FunctionCall" with
      | Some funcCall => buildAST query funcCall
      | None => bareMatrixSelectorNode (sliceOf query node)
      end
  end.
Proof.
  intros Hk. rewrite buildAST_unfold at 1. unfold buildAST_step. rewrite Hk. reflexivity.
Qed.

Lemma buildAST_VectorSelector (query : string) (node : SyntaxNode) :
  typeName node = "VectorSelector" ->
  buildAST query node =
  vectorSelectorNode (sliceOf query node)
    (match or_node (getChild node "Identifier") (getChild node "MetricIdentifier") with
     | Some identifier => sliceOf query identifier
     | None => ""
     end)
    (match getChild node "LabelMatchers" with
     | Some l => parseLabelMatchers query l
     | None => []
     end).
Proof.
  intros Hk. rewrite buildAST_unfold. unfold buildAST_step. rewrite Hk. reflexivity.
Qed.

Lemma spec_operator_cases (t : option string) :
  (spec_operator t = MatchNeq <-> t = Some "!=") /\
  (spec_operator t = MatchRe <-> t = Some "=~") /\
  (spec_operator t = MatchNre <-> t = Some "!~") /\
  (t <> Some "!=" -> t <> Some "=~" -> t <> Some "!~" -> spec_operator t = MatchEq).
Proof.
  destruct t as [t|].
  - unfold spec_operator, operatorTokens. cbn [find].
    destruct (String.eqb_spec "!=" t) as [<-|N1].
    { repeat split; intros; try congruence; try discriminate. }
    destruct (String.eqb_spec "=~" t) as [<-|N2].
    { repeat split; intros; try congruence; try discriminate. }
    destruct (String.eqb_spec "!~" t) as [<-|N3].
    { repeat split; intros; try congruence; try discriminate. }
    repeat split; intros; try congruence; try discriminate.
  - cbn. repeat split; intros; try congruence; try discriminate.
Qed.

(** * The claims *)

(** C1.  [parseQuery] is total: for every producer and every input text
    it ends normally with a well-formed result, never with a throw.  A
    throw of the producer becomes the failure result that carries its
    message; otherwise the result is one of the two fixed failures or a
    success that carries the tree built from the first child. *)
Theorem parseQuery_total (parser_parse : string -> Completion SyntaxNode) (query : string) :
  exists r,
    parseQuery parser_parse query = Normal r /\
    wellFormedResult r /\
    match parser_parse query with
    | Throw e => r = failure (thrownMessage e)
    | Normal tree =>
        r = failure "Parse error in query" \/
        r = failure "Empty query" \/
        exists node, firstChild tree = Some node /\
                     r = mkParseResult true (Some (buildAST query node)) None
    end.
Proof.
  unfold parseQuery, try_catch, bind.
  destruct (parser_parse query) as [tree|e].
  - destruct (iterate checkError tree false).
    + eexists. split; [reflexivity|]. split; [|now left].
      split; [reflexivity|]. now eexists.
    + destruct (firstChild tree) as [node|].
      * eexists. split; [reflexivity|]. split.
        -- split; [now eexists|reflexivity].
        -- right; right. now exists node.
      * eexists. split; [reflexivity|]. split; [|right; now left].
        split; [reflexivity|]. now eexists.
  - eexists. split; [reflexivity|]. split; [|destruct e; reflexivity].
    split; [reflexivity|]. now eexists.
Qed.

(** C2, amended.  Every matrixSelector node of the tree built from any
    node has no range or a positive one: a positive integer, or
    [Infinity].  A MatrixSelector node with a VectorSelector child yields
    a matrixSelector node whose range is present and positive: it is
    [parseDuration] of the duration child's text, 300000 when that text
    holds no match, and 300000 when there is no duration child.  A
    MatrixSelector node with neither a VectorSelector nor a FunctionCall
    child yields a matrixSelector node without a range. *)
Theorem matrixSelector_range (query : string) (node : SyntaxNode) :
  (forall m, InAST m (buildAST query node) -> type m = matrixSelector ->
     range m = None \/ exists r, range m = Some r /\ positive r) /\
  (typeName node = "MatrixSelector" ->
   (forall vs, getChild node "VectorSelector" = Some vs ->
      let durationNode :=
        or_node (getChild node "Duration")
                (getChild node "NumberDurationLiteralInDurationContext") in
      type (buildAST query node) = matrixSelector /\
      exists r, range (buildAST query node) = Some r /\ positive r /\
        (durationNode = None -> r = Num 300000) /\
        (forall d, durationNode = Some d ->
           r = parseDuration (sliceOf query d) /\
           (durationMatches (sliceOf query d) = [] -> r = Num 300000))) /\
   (getChild node "VectorSelector" = None ->
    getChild node "FunctionCall" = None ->
    buildAST query node = bareMatrixSelectorNode (sliceOf query node))).
Proof.
  split; [intros m Hm; exact (buildAST_ranges query node m Hm)|].
  intros Hk. pose proof (buildAST_MatrixSelector query node Hk) as Hstep.
  split.
  - intros vs Hvs durationNode. rewrite Hstep, Hvs. split; [reflexivity|].
    eexists. split; [reflexivity|]. fold durationNode.
    destruct durationNode as [d|].
    + split; [apply parseDuration_pos|]. split; [discriminate|].
      intros d' [= <-]. split; [reflexivity|]. apply parseDuration_default.
    + split; [reflexivity|]. split; [reflexivity|]. discriminate.
  - intros Hvs Hfc. now rewrite Hstep, Hvs, Hfc.
Qed.

(** The theorem at the tree of [sumQuery], at its range selector and at
    [(up)[5m]]. *)
Lemma matrixSelector_range_witness :
  (InAST (buildAST sumQuery rangeTree) (buildAST sumQuery sumTree) /\
   exists r, range (buildAST sumQuery rangeTree) = Some r /\ positive r) /\
  typeName rangeTree = "MatrixSelector" /\
  range (buildAST sumQuery rangeTree) = Some (Num 300000) /\
  buildAST parenRangeQuery parenRangeTree = bareMatrixSelectorNode "(up)[5m]".
Proof.
  assert (H : InAST (buildAST sumQuery rangeTree) (buildAST sumQuery sumTree)).
  { eapply InAST_child; [reflexivity|left; reflexivity|].
    eapply InAST_arg; [reflexivity|left; reflexivity|]. apply InAST_here. }
  split.
  - split; [exact H|].
    destruct (proj1 (matrixSelector_range sumQuery sumTree) _ H eq_refl) as [Hn|Hr];
      [discriminate Hn|exact Hr].
  - split; [reflexivity|].
    destruct (proj2 (matrixSelector_range sumQuery rangeTree) eq_refl) as (Hvs & _).
    destruct (proj2 (matrixSelector_range parenRangeQuery parenRangeTree) eq_refl)
      as (_ & Hbare).
    split.
    + destruct (Hvs _ eq_refl) as (_ & r & Hr & _ & _ & Hd).
      rewrite Hr. f_equal. exact (proj1 (Hd _ eq_refl)).
    + exact (Hbare eq_refl eq_refl).
Defined.

(** C2 as stated fails: the tree of [(up)[5m]] is built into a
    matrixSelector node that has no range; and a duration of 310 digits
    gives the range [Infinity], which is no integer. *)
Lemma matrixSelector_range_absent :
  (type (buildAST parenRangeQuery parenRangeTree) = matrixSelector /\
   range (buildAST parenRangeQuery parenRangeTree) = None) /\
  (type (buildAST hugeQuery hugeTree) = matrixSelector /\
   range (buildAST hugeQuery hugeTree) = Some Infinity) /\
  ~ (forall query node m,
       InAST m (buildAST query node) -> type m = matrixSelector ->
       exists z : Z, range m = Some (Num z) /\ (0 < z)%Z).
Proof.
  split; [split; reflexivity|].
  split; [split; vm_compute; reflexivity|].
  intros H.
  destruct (H parenRangeQuery parenRangeTree _ (InAST_here _) eq_refl) as (r & Hr & _).
  discriminate Hr.
Qed.

(** C3, amended.  As long as the sum, over the matches of an integer
    followed by a unit found from left to right, of the integer times
    the milliseconds of the unit stays below [2 ^ 53], [parseDuration] is
    that sum, with 300000 in place of a sum of 0, and the loop ends
    within the fuel it is given.  The unit table and the sample values
    are as listed. *)
Theorem parseDuration_spec (s : string) :
  (sumMatches (durationMatches s) < 2 ^ 53)%Z ->
  parseDuration s = Num (spec_parseDuration s) /\
  (forall fuel, String.length s < fuel ->
     parseDuration_loop fuel s 0 (Value (Num 0)) =
     Value (Num (sumMatches (durationMatches s)))) /\
  map unitMilliseconds unit_tokens =
    [1; 1000; 60000; 3600000; 86400000; 604800000; 31536000000]%Z /\
  parseDuration "5m" = Num 300000 /\
  parseDuration "1h30m" = Num 5400000 /\
  parseDuration "" = Num 300000 /\
  parseDuration "abc" = Num 300000 /\
  parseDuration "5M" = Num 300000 /\
  parseDuration "in 1h, 30m!" = Num 5400000.
Proof.
  intros Hb. split; [now apply parseDuration_refines|]. split.
  - intros fuel Hf. unfold durationMatches in *.
    rewrite (loop_spec (String.length s) (list_ascii_of_string s) s 0 fuel 0).
    + reflexivity.
    + now rewrite length_list_ascii.
    + reflexivity.
    + now rewrite length_list_ascii.
    + lia.
    + exact Hb.
  - repeat split; vm_compute; reflexivity.
Qed.

(** The theorem at an hour and a half. *)
Lemma parseDuration_spec_witness :
  (sumMatches (durationMatches "1h30m") < 2 ^ 53)%Z /\
  parseDuration "1h30m" = Num (spec_parseDuration "1h30m") /\
  spec_parseDuration "1h30m" = 5400000%Z.
Proof.
  split; [reflexivity|]. split; [|reflexivity].
  exact (proj1 (parseDuration_spec "1h30m" eq_refl)).
Defined.

(** C3 as stated fails: the numbers are doubles, and an integer of
    [2 ^ 53 + 1] milliseconds is read as [2 ^ 53]. *)
Lemma parseDuration_rounded :
  spec_parseDuration "9007199254740993ms" = 9007199254740993%Z /\
  parseDuration "9007199254740993ms" = Num 9007199254740992 /\
  ~ (forall s, parseDuration s = Num (spec_parseDuration s)).
Proof.
  split; [vm_compute; reflexivity|]. split; [vm_compute; reflexivity|].
  intros H. specialize (H "9007199254740993ms"). vm_compute in H. discriminate H.
Qed.




(** C5.  The matcher extractor returns, in order, one matcher for each
    direct child of a matcher kind that has a LabelName and a
    StringLiteral child, and nothing for the other children.  The
    operator is "!=", "=~" or "!~" exactly when the MatchOp text is that
    token and "=" otherwise; the value is the literal without its first
    and last character.  The two sample matchers come out as listed. *)
Theorem parseLabelMatchers_spec (query : string) (node : SyntaxNode) :
  parseLabelMatchers query node = spec_labelMatchers query node /\
  (forall t : option string,
     (spec_operator t = MatchNeq <-> t = Some "!=") /\
     (spec_operator t = MatchRe <-> t = Some "=~") /\
     (spec_operator t = MatchNre <-> t = Some "!~") /\
     (t <> Some "!=" -> t <> Some "=~" -> t <> Some "!~" -> spec_operator t = MatchEq)) /\
  (forall (q1 q2 : ascii) (v : string), stripQuotes (String q1 (v +:+ String q2 "")) = v) /\
  parseLabelMatchers matchersQuery matchersTree =
    [mkLabelMatcher MatchRe "status" "5.."; mkLabelMatcher MatchNeq "instance" "a"].
Proof.
  split; [apply parseLabelMatchers_refines|].
  split; [apply spec_operator_cases|].
  split; [apply stripQuotes_quoted|].
  vm_compute. reflexivity.
Qed.

(** C6.  An aggregation node whose operator is not a property name that
    every object inherits is explained as "This expression", the verb
    phrase of its operator, "the values", and, when the grouping is not
    empty, ", excluding labels: " (with [without]) or ", grouped by: "
    (otherwise) followed by the labels joined by ", ".  An operator
    outside the table gets "applies <op> to".  The aggregation of
    [sum by (status) (rate(x[5m]))] reads
    "This expression sums the values, grouped by: status".  For the
    operator "constructor" the lookup in the table finds the inherited
    function, which is printed in place of a verb phrase. *)
Theorem explain_aggregation_spec (ast : ParsedNode) :
  type ast = aggregation ->
  (~ In (show_string (op ast)) inheritedNames ->
   explainQuery ast =
     "This expression " +:+ spec_aggregationVerb (show_string (op ast)) +:+ " the values"
       +:+ spec_groupingClause (isTrue (without ast)) (itemsOf (grouping ast))) /\
  (~ In (show_string (op ast)) aggregationOperators ->
   spec_aggregationVerb (show_string (op ast)) =
     "applies " +:+ show_string (op ast) +:+ " to") /\
  explainQuery (buildAST sumQuery sumTree) =
    "This expression sums the values, grouped by: status" /\
  explainQuery (aggregationNode "" "constructor" [] false []) =
    "This expression function Object() { [native code] } the values".
Proof.
  intros Hty. split; [now apply explain_aggregation|].
  split; [apply spec_verb_unknown|]. split; vm_compute; reflexivity.
Qed.

(** The theorem at the aggregation built from [sumQuery]. *)
Lemma explain_aggregation_spec_witness :
  type (buildAST sumQuery sumTree) = aggregation /\
  ~ In "sum" inheritedNames /\
  explainQuery (buildAST sumQuery sumTree) =
    "This expression " +:+ spec_aggregationVerb "sum" +:+ " the values"
      +:+ spec_groupingClause false ["status"].
Proof.
  assert (Hn : ~ In "sum" inheritedNames).
  { intros H; cbn in H; repeat (destruct H as [H|H]; [discriminate H|]); exact H. }
  split; [reflexivity|]. split; [exact Hn|].
  exact (proj1 (explain_aggregation_spec (buildAST sumQuery sumTree) eq_refl) Hn).
Defined.




(** C8.  A VectorSelector node without an Identifier or MetricIdentifier
    child is built into a vectorSelector node named "", explained as
    Selects the metric "(any)".  Every vectorSelector node is explained
    with its name, or "(any)" for an empty one, and, when the matchers
    are not empty, " where " and the matchers joined by " AND ", each as
    its name, its relation and its quoted value. *)
Theorem vectorSelector_any_metric (query : string) (node : SyntaxNode) :
  typeName node = "VectorSelector" ->
  getChild node "Identifier" = None ->
  getChild node "MetricIdentifier" = None ->
  type (buildAST query node) = vectorSelector /\
  name (buildAST query node) = Some "" /\
  explainQuery (buildAST query node) =
    "Selects the metric " +:+ dq +:+ "(any)" +:+ dq
      +:+ spec_whereClause (itemsOf (matchers (buildAST query node))) /\
  (forall ast, type ast = vectorSelector ->
     explainQuery ast =
       "Selects the metric " +:+ dq +:+ or_string (name ast) "(any)" +:+ dq
         +:+ spec_whereClause (itemsOf (matchers ast))) /\
  map relationOf [MatchEq; MatchNeq; MatchRe; MatchNre] =
    ["equals"; "does not equal"; "matches regex"; "does not match regex"].
Proof.
  intros Hk Hid Hmid.
  pose proof (buildAST_VectorSelector query node Hk) as Hstep.
  rewrite Hid, Hmid in Hstep. cbn [or_node] in Hstep.
  split; [now rewrite Hstep|]. split; [now rewrite Hstep|].
  split; [|split; [apply explain_vectorSelector|reflexivity]].
  rewrite explain_vectorSelector by now rewrite Hstep.
  now rewrite Hstep.
Qed.

(** The theorem at the selector [{job="api"}]. *)
Lemma vectorSelector_any_metric_witness :
  typeName anyMetricTree = "VectorSelector" /\
  getChild anyMetricTree "Identifier" = None /\
  getChild anyMetricTree "MetricIdentifier" = None /\
  name (buildAST anyMetricQuery anyMetricTree) = Some "" /\
  explainQuery (buildAST anyMetricQuery anyMetricTree) =
    "Selects the metric " +:+ dq +:+ "(any)" +:+ dq
      +:+ " where job equals " +:+ dq +:+ "api" +:+ dq.
Proof.
  split; [reflexivity|]. split; [reflexivity|]. split; [reflexivity|].
  destruct (vectorSelector_any_metric anyMetricQuery anyMetricTree eq_refl eq_refl eq_refl)
    as (_ & Hname & Hexp & _).
  split; [exact Hname|exact Hexp].
Defined.

(** C9.  For a node of a kind without a case, the builder builds every
    direct child that is an expression node.  With exactly one such
    child, what is built from it is returned as it is; otherwise an
    error node is returned, with the text of this node and with the
    built children, left out when there are none. *)
Theorem default_kind (query : string) (node : SyntaxNode) :
  includes recognizedKinds (typeName node) = false ->
  buildAST query node =
  match List.filter isExpressionNode (childNodes node) with
  | [c] => buildAST query c
  | [] => errorNode (sliceOf query node) None
  | cs => errorNode (sliceOf query node) (Some (map (buildAST query) cs))
  end.
Proof.
  intros H. rewrite buildAST_unfold. unfold buildAST_step. unfold recognizedKinds in H.
  repeat match type of H with
         | includes (_ :: _) _ = false =>
             let E := fresh "E" in
             apply includes_false_cons in H as [E H]; rewrite ?E
         end.
  cbn [orb]. rewrite collect_fold. cbn [app].
  destruct (List.filter isExpressionNode (childNodes node)) as [|c [|c' cs]]; reflexivity.
Qed.

(** The theorem at the step-invariant wrapper of [up @ start()]. *)
Lemma default_kind_witness :
  includes recognizedKinds (typeName stepInvariantTree) = false /\
  buildAST stepInvariantQuery stepInvariantTree =
    buildAST stepInvariantQuery (branch "VectorSelector" 0 2 [leaf "Identifier" 0 2]).
Proof.
  split; [reflexivity|].
  exact (default_kind stepInvariantQuery stepInvariantTree eq_refl).
Defined.



(** ** The loops of the builder as list functions *)

Lemma rev_filter_snoc {A} (p : A -> bool) (l : list A) (x : A) :
  rev (List.filter p (l ++ [x])) =
  if p x then x :: rev (List.filter p l) else rev (List.filter p l).
Proof.
  rewrite List.filter_app. cbn [List.filter].
  destruct (p x); [|now rewrite app_nil_r].
  now rewrite rev_app_distr.
Qed.

Section Loops.
Variable query : string.
Variable self : SyntaxNode -> ParsedNode.

Lemma labels_fold l : forall acc,
  fold_left (fun labels c =>
               if String.eqb (typeName c) "LabelName"
               then labels ++ [sliceOf query c] else labels) l acc =
  acc ++ map (sliceOf query)
             (List.filter (fun c => String.eqb (typeName c) "LabelName") l).
Proof.
  induction l as [|c l IH]; intros acc; cbn [fold_left List.filter].
  - now rewrite app_nil_r.
  - rewrite IH. destruct (String.eqb (typeName c) "LabelName"); [|reflexivity].
    cbn [map]. now rewrite <- app_assoc.
Qed.

Lemma binary_fold l : forall pre cs o,
  fold_left (fun (st : list ParsedNode * string) child =>
               let (children, op) := st in
               if isExpressionNode child then (children ++ [self child], op)
               else if (str_includes (typeName child) "Op"
                        || includes binaryOpNames (typeName child))%bool
                    then (children, sliceOf query child)
                    else (children, op))
            l (cs, match rev (List.filter isOperatorToken pre) with
                   | c :: _ => sliceOf query c
                   | [] => o
                   end) =
  (cs ++ map self (List.filter isExpressionNode l),
   match rev (List.filter isOperatorToken (pre ++ l)) with
   | c :: _ => sliceOf query c
   | [] => o
   end).
Proof.
  induction l as [|c l IH]; intros pre cs o; cbn [fold_left].
  - now rewrite !app_nil_r.
  - match goal with
    | |- fold_left ?F l ?st = _ =>
        replace st with
          (cs ++ map self (List.filter isExpressionNode [c]),
           match rev (List.filter isOperatorToken (pre ++ [c])) with
           | k :: _ => sliceOf query k
           | [] => o
           end)
    end.
    + rewrite IH, <- !app_assoc, <- map_app, <- List.filter_app. reflexivity.
    + rewrite rev_filter_snoc. unfold isOperatorToken at 1. cbn [List.filter].
      destruct (isExpressionNode c); cbn [negb andb map]; [reflexivity|].
      destruct (_ || _)%bool; now rewrite app_nil_r.
Qed.

Lemma sign_not_expression c : isSignToken c = true -> isExpressionNode c = false.
Proof.
  unfold isSignToken, isExpressionNode. intros H.
  apply orb_prop in H as [H|H]; apply String.eqb_eq in H; now rewrite H.
Qed.

Lemma unary_fold l : forall pre o cs,
  fold_left (fun (st : string * list ParsedNode) current =>
               let (op, children) := st in
               if (String.eqb (typeName current) "Add"
                   || String.eqb (typeName current) "Sub")%bool
               then (sliceOf query current, children)
               else if isExpressionNode current
                    then (op, children ++ [self current])
                    else (op, children))
            l (match rev (List.filter isSignToken pre) with
               | c :: _ => sliceOf query c
               | [] => o
               end, cs) =
  (match rev (List.filter isSignToken (pre ++ l)) with
   | c :: _ => sliceOf query c
   | [] => o
   end,
   cs ++ map self (List.filter isExpressionNode l)).
Proof.
  induction l as [|c l IH]; intros pre o cs; cbn [fold_left].
  - now rewrite !app_nil_r.
  - match goal with
    | |- fold_left ?F l ?st = _ =>
        replace st with
          (match rev (List.filter isSignToken (pre ++ [c])) with
           | k :: _ => sliceOf query k
           | [] => o
           end,
           cs ++ map self (List.filter isExpressionNode [c]))
    end.
    + rewrite IH, <- !app_assoc, <- map_app, <- List.filter_app. reflexivity.
    + rewrite rev_filter_snoc. fold (isSignToken c). cbn [List.filter].
      destruct (isSignToken c) eqn:Es.
      * now rewrite (sign_not_expression c Es), app_nil_r.
      * destruct (isExpressionNode c); cbn [map]; now rewrite ?app_nil_r.
Qed.

End Loops.

Lemma parseGroupingLabels_eq query node :
  parseGroupingLabels query node =
  map (sliceOf query)
      (List.filter (fun c => String.eqb (typeName c) "LabelName") (childNodes node)).
Proof. unfold parseGroupingLabels. now rewrite labels_fold. Qed.

Section Kinds.
Variable query : string.

Lemma buildAST_FunctionCall node :
  typeName node = "FunctionCall" ->
  buildAST query node =
  callNode (sliceOf query node)
    (match getChild node "FunctionIdentifier" with
     | Some funcId => sliceOf query funcId
     | None => "unknown"
     end)
    (match getChild node "FunctionCallBody" with
     | Some body => map (buildAST query) (List.filter isExpressionNode (childNodes body))
     | None => []
     end).
Proof.
  intros Hk. rewrite buildAST_unfold at 1. unfold buildAST_step. rewrite Hk.
  change (callNode (sliceOf query node)
    (match getChild node "FunctionIdentifier" with
     | Some funcId => sliceOf query funcId
     | None => "unknown"
     end)
    (match getChild node "FunctionCallBody" with
     | Some body =>
         fold_left (fun args child =>
                      if isExpressionNode child then args ++ [buildAST query child] else args)
                   (childNodes body) []
     | None => []
     end) = callNode (sliceOf query node)
    (match getChild node "FunctionIdentifier" with
     | Some funcId => sliceOf query funcId
     | None => "unknown"
     end)
    (match getChild node "FunctionCallBody" with
     | Some body => map (buildAST query) (List.filter isExpressionNode (childNodes body))
     | None => []
     end)).
  destruct (getChild node "FunctionCallBody"); [|reflexivity].
  now rewrite collect_fold.
Qed.

Lemma buildAST_BinaryExpr node :
  typeName node = "BinaryExpr" ->
  buildAST query node =
  binaryExprNode (sliceOf query node)
    (lastSlice query (List.filter isOperatorToken (childNodes node)))
    (map (buildAST query) (List.filter isExpressionNode (childNodes node))).
Proof.
  intros Hk. rewrite buildAST_unfold at 1. unfold buildAST_step. rewrite Hk.
  pose proof (binary_fold query (buildAST query) (childNodes node) [] [] "") as H.
  cbn [List.filter rev app] in H. rewrite H. reflexivity.
Qed.

Lemma buildAST_UnaryExpr node :
  typeName node = "UnaryExpr" ->
  buildAST query node =
  unaryExprNode (sliceOf query node)
    (lastSlice query (List.filter isSignToken (childNodes node)))
    (map (buildAST query) (List.filter isExpressionNode (childNodes node))).
Proof.
  intros Hk. rewrite buildAST_unfold at 1. unfold buildAST_step. rewrite Hk.
  pose proof (unary_fold query (buildAST query) (childNodes node) [] "" []) as H.
  cbn [List.filter rev app] in H. rewrite H. reflexivity.
Qed.

Lemma buildAST_AggregateExpr node :
  typeName node = "AggregateExpr" ->
  buildAST query node =
  aggregationNode (sliceOf query node)
    (match getChild node "AggregateOp" with
     | Some aggOp => toLowerCase (sliceOf query aggOp)
     | None => "unknown"
     end)
    (match getChild node "AggregateModifier" with
     | Some modifier =>
         match getChild modifier "GroupingLabels" with
         | Some labels =>
             map (sliceOf query)
                 (List.filter (fun c => String.eqb (typeName c) "LabelName")
                              (childNodes labels))
         | None => []
         end
     | None => []
     end)
    (match getChild node "AggregateModifier" with
     | Some modifier => present (getChild modifier "Without")
     | None => false
     end)
    (match getChild node "FunctionCallBody" with
     | Some body =>
         map (buildAST query) (List.filter isExpressionNode (firstn 1 (childNodes body)))
     | None => []
     end).
Proof.
  intros Hk. rewrite buildAST_unfold at 1. unfold buildAST_step. rewrite Hk.
  cbv beta iota delta [String.eqb Ascii.eqb Bool.eqb orb].
  assert (Hc : forall body,
            match firstChild body with
            | Some child => if isExpressionNode child then [buildAST query child] else []
            | None => []
            end =
            map (buildAST query) (List.filter isExpressionNode (firstn 1 (childNodes body)))).
  { intros body. unfold firstChild. destruct (childNodes body) as [|c cs]; [reflexivity|].
    cbn [hd_error firstn List.filter]. destruct (isExpressionNode c); reflexivity. }
  destruct (getChild node "FunctionCallBody") as [body|]; rewrite ?Hc;
    (destruct (getChild node "AggregateModifier") as [md|]; [|reflexivity]);
    (destruct (getChild md "GroupingLabels"); rewrite ?parseGroupingLabels_eq);
    destruct (getChild md "Without"); reflexivity.
Qed.

End Kinds.

(** ** Every node of the AST is made at a node of the syntax tree *)

Lemma InTree_trans a b c : InTree a b -> InTree b c -> InTree a c.
Proof.
  intros Hab Hbc. induction Hbc as [|root k Hin Hk IH]; [exact Hab|].
  eapply InTree_below; eauto.
Qed.

Lemma child_below n c : In c (childNodes n) -> InTree c n /\ height c < height n.
Proof.
  intros H. split; [|now apply height_child].
  eapply InTree_below; [exact H|apply InTree_here].
Qed.

Lemma grandchild_below n b c :
  In b (childNodes n) -> In c (childNodes b) -> InTree c n /\ height c < height n.
Proof.
  intros Hb Hc. destruct (child_below _ _ Hb) as [Tb Lb].
  destruct (child_below _ _ Hc) as [Tc Lc].
  split; [eapply InTree_trans; eauto|lia].
Qed.

Section Made.
Variable query : string.

Lemma buildAST_wrapper node :
  typeName node = "PromQL" \/ typeName node = "Expr" ->
  buildAST query node =
  match firstChild node with
  | Some child => buildAST query child
  | None => errorNode (sliceOf query node) None
  end.
Proof.
  intros [Hk|Hk]; rewrite buildAST_unfold at 1; unfold buildAST_step; rewrite Hk;
    reflexivity.
Qed.

Lemma buildAST_SubqueryExpr node :
  typeName node = "SubqueryExpr" ->
  buildAST query node =
  subqueryNode (sliceOf query node)
    (match getChild node "Expr" with
     | Some expr => [buildAST query expr]
     | None => []
     end).
Proof.
  intros Hk. rewrite buildAST_unfold at 1. unfold buildAST_step. rewrite Hk. reflexivity.
Qed.

Lemma buildAST_ParenExpr node :
  typeName node = "ParenExpr" ->
  buildAST query node =
  parenExprNode (sliceOf query node)
    (match getChild node "Expr" with
     | Some inner => [buildAST query inner]
     | None => []
     end).
Proof.
  intros Hk. rewrite buildAST_unfold at 1. unfold buildAST_step. rewrite Hk. reflexivity.
Qed.

Lemma buildAST_number node :
  typeName node = "NumberLiteral" \/ typeName node = "NumberDurationLiteral" ->
  buildAST query node = numberLiteralNode (sliceOf query node).
Proof.
  intros [Hk|Hk]; rewrite buildAST_unfold at 1; unfold buildAST_step; rewrite Hk;
    reflexivity.
Qed.

Lemma buildAST_StringLiteral node :
  typeName node = "StringLiteral" ->
  buildAST query node = stringLiteralNode (sliceOf query node).
Proof.
  intros Hk. rewrite buildAST_unfold at 1. unfold buildAST_step. rewrite Hk. reflexivity.
Qed.

Lemma buildAST_otherKind node :
  includes recognizedKinds (typeName node) = false ->
  buildAST query node =
  match map (buildAST query) (List.filter isExpressionNode (childNodes node)) with
  | [only] => only
  | [] => errorNode (sliceOf query node) None
  | cs => errorNode (sliceOf query node) (Some cs)
  end.
Proof.
  intros H. rewrite buildAST_unfold at 1. unfold buildAST_step. unfold recognizedKinds in H.
  repeat match type of H with
         | includes (_ :: _) _ = false =>
             let E := fresh "E" in
             apply includes_false_cons in H as [E H]; rewrite ?E
         end.
  cbn [orb]. rewrite collect_fold. cbn [app].
  destruct (map (buildAST query) (List.filter isExpressionNode (childNodes node)))
    as [|a [|b rest]]; reflexivity.
Qed.

Lemma nodeTypeOf_other kind :
  includes recognizedKinds kind = false -> nodeTypeOf kind = error.
Proof.
  intros H. unfold nodeTypeOf. unfold recognizedKinds in H.
  repeat match type of H with
         | includes (_ :: _) _ = false =>
             let E := fresh "E" in
             apply includes_false_cons in H as [E H]; rewrite ?E
         end.
  reflexivity.
Qed.

Lemma recognized_cases kind :
  includes recognizedKinds kind = true -> In kind recognizedKinds.
Proof.
  unfold includes. intros H. apply existsb_exists in H as (k & Hin & Hk).
  apply String.eqb_eq in Hk. now subst.
Qed.

Lemma built_children node (l : list SyntaxNode) :
  (forall c, In c l -> InTree c node /\ height c < height node) ->
  forall k, In k (map (buildAST query) (List.filter isExpressionNode l)) ->
            builtBelow query node k.
Proof.
  intros Hl k Hk. apply List.in_map_iff in Hk as (c & <- & Hc).
  apply List.filter_In in Hc as [Hc _]. destruct (Hl c Hc). now exists c.
Qed.

Lemma length_filter_firstn1 {A} (p : A -> bool) (l : list A) :
  length (List.filter p (firstn 1 l)) <= 1.
Proof.
  destruct l as [|x l]; [simpl; lia|]. cbn [firstn List.filter].
  destruct (p x); simpl; lia.
Qed.

(** Either the node hands over to a node strictly below it, or it makes
    an object literal whose sub-nodes are built strictly below it. *)
Lemma buildAST_structure node :
  builtBelow query node (buildAST query node) \/
  (madeAt query node (buildAST query node) /\
   forall k, In k (subASTs (buildAST query node)) -> builtBelow query node k).
Proof.
  destruct (includes recognizedKinds (typeName node)) eqn:Hrec.
  - apply recognized_cases in Hrec. unfold recognizedKinds in Hrec. cbn [In] in Hrec.
    destruct Hrec as [Hk|[Hk|[Hk|[Hk|[Hk|[Hk|[Hk|[Hk|[Hk|[Hk|[Hk|[Hk|[Hk|[]]]]]]]]]]]]]];
      symmetry in Hk.
    1,2: rewrite buildAST_wrapper by auto;
         destruct (firstChild node) as [c|] eqn:Ec;
         [ left; destruct (child_below _ _ (firstChild_In _ _ Ec)); now exists c
         | right; split; [split; [reflexivity|split; [now rewrite Hk|reflexivity]]
                         | intros k []] ].
    + (* AggregateExpr *)
      rewrite (buildAST_AggregateExpr _ _ Hk). right. split.
      * split; [reflexivity|]. split; [now rewrite Hk|].
        unfold shapeOK, aggregationNode. cbn.
        destruct (getChild node "FunctionCallBody") as [body|]; [|reflexivity].
        apply Nat.leb_le. rewrite length_map. apply length_filter_firstn1.
      * unfold subASTs, aggregationNode. cbn. intros k Hin. rewrite app_nil_r in Hin.
        destruct (getChild node "FunctionCallBody") as [body|] eqn:Eb; [|destruct Hin].
        eapply built_children; [|exact Hin]. intros c Hc.
        eapply grandchild_below; [eapply getChild_In, Eb|].
        destruct (childNodes body) as [|x xs]; [destruct Hc|].
        destruct Hc as [<-|[]]. now left.
    + (* FunctionCall *)
      rewrite (buildAST_FunctionCall _ _ Hk). right. split.
      * split; [reflexivity|]. split; [now rewrite Hk|reflexivity].
      * unfold subASTs, callNode. cbn. intros k Hin.
        destruct (getChild node "FunctionCallBody") as [body|] eqn:Eb; [|destruct Hin].
        eapply built_children; [|exact Hin]. intros c Hc.
        eapply grandchild_below; [eapply getChild_In, Eb|exact Hc].
    + (* BinaryExpr *)
      rewrite (buildAST_BinaryExpr _ _ Hk). right. split.
      * split; [reflexivity|]. split; [now rewrite Hk|reflexivity].
      * unfold subASTs, binaryExprNode. cbn. intros k Hin. rewrite app_nil_r in Hin.
        eapply built_children; [|exact Hin]. intros c Hc. now apply child_below.
    + (* VectorSelector *)
      rewrite (buildAST_VectorSelector _ _ Hk). right. split.
      * split; [reflexivity|]. split; [now rewrite Hk|reflexivity].
      * intros k [].
    + (* MatrixSelector *)
      rewrite (buildAST_MatrixSelector _ _ Hk).
      destruct (getChild node "VectorSelector") as [vs|] eqn:Ev.
      * right. split; [|intros k []].
        split; [reflexivity|]. split; [now rewrite Hk|reflexivity].
      * destruct (getChild node "FunctionCall") as [fc|] eqn:Ef.
        -- left. destruct (child_below _ _ (getChild_In _ _ _ Ef)). now exists fc.
        -- right. split; [|intros k []].
           split; [reflexivity|]. split; [now rewrite Hk|reflexivity].
    + (* SubqueryExpr *)
      rewrite (buildAST_SubqueryExpr _ Hk). right. split.
      * split; [reflexivity|]. split; [now rewrite Hk|].
        destruct (getChild node "Expr"); reflexivity.
      * unfold subASTs, subqueryNode. cbn. intros k Hin.
        destruct (getChild node "Expr") as [e|] eqn:Ee; [|destruct Hin].
        destruct Hin as [<-|[]].
        destruct (child_below _ _ (getChild_In _ _ _ Ee)). now exists e.
    + rewrite buildAST_number by auto. right. split; [|intros k []].
      split; [reflexivity|]. split; [now rewrite Hk|].
      unfold shapeOK, numberLiteralNode. cbn. apply String.eqb_refl.
    + rewrite buildAST_number by auto. right. split; [|intros k []].
      split; [reflexivity|]. split; [now rewrite Hk|].
      unfold shapeOK, numberLiteralNode. cbn. apply String.eqb_refl.
    + rewrite (buildAST_StringLiteral _ Hk). right. split; [|intros k []].
      split; [reflexivity|]. split; [now rewrite Hk|].
      unfold shapeOK, stringLiteralNode. cbn. apply String.eqb_refl.
    + (* ParenExpr *)
      rewrite (buildAST_ParenExpr _ Hk). right. split.
      * split; [reflexivity|]. split; [now rewrite Hk|].
        destruct (getChild node "Expr"); reflexivity.
      * unfold subASTs, parenExprNode. cbn. intros k Hin.
        destruct (getChild node "Expr") as [e|] eqn:Ee; [|destruct Hin].
        destruct Hin as [<-|[]].
        destruct (child_below _ _ (getChild_In _ _ _ Ee)). now exists e.
    + (* UnaryExpr *)
      rewrite (buildAST_UnaryExpr _ _ Hk). right. split.
      * split; [reflexivity|]. split; [now rewrite Hk|reflexivity].
      * unfold subASTs, unaryExprNode. cbn. intros k Hin. rewrite app_nil_r in Hin.
        eapply built_children; [|exact Hin]. intros c Hc. now apply child_below.
  - rewrite (buildAST_otherKind _ Hrec).
    pose proof (built_children node (childNodes node) (child_below node)) as Hb.
    destruct (map (buildAST query) (List.filter isExpressionNode (childNodes node)))
      as [|a [|b rest]].
    + right. split; [|intros k []].
      split; [reflexivity|]. split; [now rewrite nodeTypeOf_other|reflexivity].
    + left. apply Hb. now left.
    + right. split.
      * split; [reflexivity|]. split; [now rewrite nodeTypeOf_other|reflexivity].
      * unfold subASTs, errorNode. cbn. intros k Hin. rewrite app_nil_r in Hin.
        now apply Hb.
Qed.

Lemma InAST_inv m a :
  InAST m a -> m = a \/ exists k, In k (subASTs a) /\ InAST m k.
Proof.
  intros H. inversion H as [|? c cs E Hin Hsub|? c cs E Hin Hsub]; subst.
  - now left.
  - right. exists c. split; [|exact Hsub]. unfold subASTs. rewrite E. cbn.
    apply in_or_app. now left.
  - right. exists c. split; [|exact Hsub]. unfold subASTs. rewrite E. cbn.
    apply in_or_app. now right.
Qed.

Lemma buildAST_nodes_made : forall root m,
  InAST m (buildAST query root) -> exists n, InTree n root /\ madeAt query n m.
Proof.
  induction root as [root IH] using SyntaxNode_height_ind. intros m Hm.
  destruct (buildAST_structure root) as [(c & Tc & Lc & E)|[Hmade Hsub]].
  - rewrite E in Hm. destruct (IH c Lc m Hm) as (n & Tn & Hn).
    exists n. split; [eapply InTree_trans; eauto|exact Hn].
  - apply InAST_inv in Hm as [->|(k & Hk & Hmk)].
    + exists root. split; [apply InTree_here|exact Hmade].
    + destruct (Hsub k Hk) as (c & Tc & Lc & ->).
      destruct (IH c Lc m Hmk) as (n & Tn & Hn).
      exists n. split; [eapply InTree_trans; eauto|exact Hn].
Qed.

Lemma astDepth_le (m : ParsedNode) (d : nat) :
  (forall k, In k (subASTs m) -> astDepth k <= d) -> astDepth m <= S d.
Proof.
  destruct m as [ty tx cs o nm ms rg off gr wo fn xs vl].
  unfold subASTs. cbn [children args astDepth itemsOf]. intros H.
  assert (Hl : forall l : list ParsedNode, (forall k, In k l -> astDepth k <= d) ->
               (fix depths (l : list ParsedNode) : nat :=
                  match l with
                  | [] => 0
                  | c :: l' => Nat.max (astDepth c) (depths l')
                  end) l <= d).
  { induction l as [|x l IHl]; intros Hx; [lia|].
    specialize (IHl (fun k Hk => Hx k (or_intror Hk))).
    specialize (Hx x (or_introl eq_refl)). lia. }
  apply le_n_S. apply Nat.max_lub.
  - destruct cs as [l|]; [|lia]. apply Hl. intros k Hk. apply H, in_or_app. now left.
  - destruct xs as [l|]; [|lia]. apply Hl. intros k Hk. apply H, in_or_app. now right.
Qed.

Lemma buildAST_depth : forall node, astDepth (buildAST query node) <= height node.
Proof.
  induction node as [node IH] using SyntaxNode_height_ind.
  destruct (buildAST_structure node) as [(c & Tc & Lc & E)|[Hmade Hsub]].
  - rewrite E. specialize (IH c Lc). lia.
  - pose proof (height_pos node).
    apply Nat.le_trans with (S (height node - 1)); [|lia].
    apply astDepth_le. intros k Hk.
    destruct (Hsub k Hk) as (c & Tc & Lc & ->). specialize (IH c Lc). lia.
Qed.

End Made.

(** ** Printing a number and reading it back *)

Lemma chars_app (a b : string) :
  list_ascii_of_string (a +:+ b) = list_ascii_of_string a ++ list_ascii_of_string b.
Proof.
  induction a as [|c a IH]; [reflexivity|].
  rewrite append_cons. cbn [list_ascii_of_string app]. now rewrite IH.
Qed.

Lemma uint_digits d :
  Forall (fun c => is_digit c = true) (list_ascii_of_string (NilEmpty.string_of_uint d)).
Proof.
  induction d; cbn [NilEmpty.string_of_uint list_ascii_of_string];
    constructor; auto.
Qed.

Lemma parseInt_uint_acc d : forall p,
  parseInt_go (Z.pos p) (list_ascii_of_string (NilEmpty.string_of_uint d)) =
  Z.pos (Pos.of_uint_acc d p).
Proof.
  induction d; intros p;
    cbn [NilEmpty.string_of_uint list_ascii_of_string parseInt_go Pos.of_uint_acc];
    try reflexivity;
    match goal with
    | |- (if is_digit ?c then _ else _) = _ =>
        change (is_digit c) with true; cbv iota
    end;
    match goal with
    | |- parseInt_go ?a _ = Z.pos (Pos.of_uint_acc _ ?q) =>
        replace a with (Z.pos q)
          by (match goal with
              | |- context [digit_value ?c] =>
                  let v := eval vm_compute in (digit_value c) in
                  change (digit_value c) with v
              end; lia)
    end; apply IHd.
Qed.

Lemma parseInt_uint d :
  parseInt_go 0 (list_ascii_of_string (NilEmpty.string_of_uint d)) =
  Z.of_N (Pos.of_uint d).
Proof.
  induction d;
    cbn [NilEmpty.string_of_uint list_ascii_of_string parseInt_go Pos.of_uint];
    try reflexivity;
    match goal with
    | |- (if is_digit ?c then _ else _) = _ =>
        change (is_digit c) with true; cbv iota
    end.
  - exact IHd.
  - apply (parseInt_uint_acc d 1).
  - apply (parseInt_uint_acc d 2).
  - apply (parseInt_uint_acc d 3).
  - apply (parseInt_uint_acc d 4).
  - apply (parseInt_uint_acc d 5).
  - apply (parseInt_uint_acc d 6).
  - apply (parseInt_uint_acc d 7).
  - apply (parseInt_uint_acc d 8).
  - apply (parseInt_uint_acc d 9).
Qed.

Lemma decimal_pos p :
  decimal (Z.pos p) = NilEmpty.string_of_uint (Pos.to_uint p).
Proof.
  unfold decimal. cbn [Z.to_int NilZero.string_of_int].
  pose proof (Unsigned.to_uint_nonnil p) as H. unfold NilZero.string_of_uint.
  destruct (Pos.to_uint p); [contradiction|reflexivity..].
Qed.

Lemma parseInt_shown p :
  parseInt_go 0 (list_ascii_of_string (decimal (Z.pos p))) = Z.pos p.
Proof. now rewrite decimal_pos, parseInt_uint, Unsigned.of_to. Qed.

Lemma shown_digits p :
  Forall (fun c => is_digit c = true) (list_ascii_of_string (decimal (Z.pos p))).
Proof. rewrite decimal_pos. apply uint_digits. Qed.

Lemma shown_nonempty p : list_ascii_of_string (decimal (Z.pos p)) <> [].
Proof.
  rewrite decimal_pos. pose proof (Unsigned.to_uint_nonnil p) as H.
  destruct (Pos.to_uint p); [contradiction|discriminate..].
Qed.

Lemma digit_span_digits D : forall r,
  Forall (fun c => is_digit c = true) D -> starts_with_digit r = false ->
  digit_span (D ++ r) = (D, r).
Proof.
  induction D as [|c D IH]; intros r HD Hr.
  - destruct r as [|x r]; [reflexivity|]. simpl in *. now rewrite Hr.
  - inversion HD; subst. cbn [app digit_span]. rewrite H1, IH by assumption. reflexivity.
Qed.

Lemma unit_token_alone u :
  In u unit_tokens ->
  first_token unit_tokens (list_ascii_of_string u) = Some (u, []) /\
  starts_with_digit (list_ascii_of_string u) = false.
Proof.
  unfold unit_tokens. simpl.
  intros [<-|[<-|[<-|[<-|[<-|[<-|[<-|[]]]]]]]]; split; reflexivity.
Qed.

Lemma matches_number_unit p u :
  In u unit_tokens ->
  durationMatches_go None (list_ascii_of_string (decimal (Z.pos p) +:+ u)) =
  [(Z.pos p, u)].
Proof.
  intros Hu. destruct (unit_token_alone u Hu) as [Hft Hsd].
  rewrite chars_app.
  pose proof (digit_span_digits _ _ (shown_digits p) Hsd) as Hspan.
  rewrite (go_span _ None _ _ Hspan).
  destruct (list_ascii_of_string (decimal (Z.pos p))) eqn:E;
    [now apply shown_nonempty in E|].
  rewrite <- E. cbn [acc_value]. rewrite parseInt_shown.
  rewrite (go_after_number _ _ Hsd), Hft. reflexivity.
Qed.

Lemma parseDuration_number_unit (k : Z) (u : string) :
  (0 < k)%Z -> In u unit_tokens -> (k * unitMilliseconds u < 2 ^ 53)%Z ->
  parseDuration (decimal k +:+ u) = Num (k * unitMilliseconds u).
Proof.
  intros Hk Hu Hb. destruct k as [|p|p]; try lia.
  pose proof (unitMilliseconds_pos u Hu).
  rewrite parseDuration_refines; unfold spec_parseDuration, durationMatches;
    rewrite (matches_number_unit p u Hu); cbn [sumMatches fold_right]; [|lia].
  destruct (Z.eqb_spec (Z.pos p * unitMilliseconds u + 0) 0); [lia|].
  f_equal. lia.
Qed.

Lemma shown_quotient ms c :
  (0 < c <= ms)%Z -> (ms < 2 ^ 53)%Z ->
  show_number (js_floor_div (Num ms) c) = decimal (ms / c).
Proof.
  intros Hc Hb. cbn [js_floor_div]. rewrite (floor_quotient_small ms c Hc Hb).
  apply show_number_small.
  pose proof (Z.div_pos ms c ltac:(lia) ltac:(lia)).
  pose proof (Z.div_le_upper_bound ms c ms ltac:(lia) ltac:(nia)). lia.
Qed.

Lemma formatDuration_unit (ms : Z) :
  (0 < ms < 2 ^ 53)%Z ->
  exists u, In u unit_tokens /\ unitMilliseconds u = formatUnit ms /\
            formatDuration (Num ms) = decimal (ms / formatUnit ms) +:+ u.
Proof.
  intros [H0 Hb]. unfold formatDuration, formatUnit. cbn [js_ge].
  destruct (Z.geb_spec ms 86400000);
    [exists "d"; rewrite shown_quotient by lia; repeat split; simpl; tauto|].
  destruct (Z.geb_spec ms 3600000);
    [exists "h"; rewrite shown_quotient by lia; repeat split; simpl; tauto|].
  destruct (Z.geb_spec ms 60000);
    [exists "m"; rewrite shown_quotient by lia; repeat split; simpl; tauto|].
  destruct (Z.geb_spec ms 1000);
    [exists "s"; rewrite shown_quotient by lia; repeat split; simpl; tauto|].
  exists "ms". rewrite Z.div_1_r, show_number_small by lia.
  repeat split; simpl; tauto.
Qed.

Lemma formatUnit_bounds ms : (0 < ms -> 0 < formatUnit ms <= ms)%Z.
Proof.
  intros H. unfold formatUnit.
  repeat match goal with
         | |- context [(ms >=? ?c)%Z] => destruct (Z.geb_spec ms c)
         end; lia.
Qed.

Lemma parseDuration_formatDuration ms :
  (0 < ms < 2 ^ 53)%Z ->
  parseDuration (formatDuration (Num ms)) = Num (ms / formatUnit ms * formatUnit ms).
Proof.
  intros H. destruct (formatDuration_unit ms H) as (u & Hu & Hv & ->).
  pose proof (formatUnit_bounds ms ltac:(lia)) as Hb.
  pose proof (Z.mul_div_le ms (formatUnit ms) ltac:(lia)).
  rewrite parseDuration_number_unit, Hv; [reflexivity| |exact Hu|rewrite Hv; lia].
  apply Z.div_str_pos. lia.
Qed.

Lemma sumMatches_zero l :
  (forall n u, In (n, u) l -> n = 0%Z) -> sumMatches l = 0%Z.
Proof.
  induction l as [|[n u] l IH]; intros H; [reflexivity|].
  cbn [sumMatches fold_right]. fold (sumMatches l).
  rewrite IH by (intros; eapply H; right; eauto).
  rewrite (H n u) by now left. reflexivity.
Qed.

(** ** Table lookups with a fallback *)

Lemma assoc_lookup_None {A} (l : list (string * A)) k :
  ~ In k (map fst l) -> assoc_lookup l k = None.
Proof.
  induction l as [|[k' v] l IH]; intros H; [reflexivity|].
  cbn [assoc_lookup]. destruct (String.eqb_spec k' k) as [->|N].
  - exfalso. apply H. now left.
  - apply IH. intros Hin. apply H. now right.
Qed.

Lemma assoc_lookup_Some {A} (l : list (string * A)) k :
  In k (map fst l) -> exists v, assoc_lookup l k = Some v /\ In v (map snd l).
Proof.
  induction l as [|[k' v] l IH]; intros H; [destruct H|].
  cbn [assoc_lookup]. destruct (String.eqb_spec k' k) as [->|N].
  - exists v. split; [reflexivity|now left].
  - destruct H as [H|H]; [contradiction|].
    destruct (IH H) as (v' & Hv & Hin). exists v'. split; [exact Hv|now right].
Qed.

Lemma nonempty_or (d dflt : string) : d <> "" -> or_string (Some d) dflt = d.
Proof. destruct d; [congruence|reflexivity]. Qed.

Lemma or_string_known (o : option string) (names : list string) :
  In (show_string o) names -> ~ In "undefined" names -> ~ In "" names ->
  or_string o "" = show_string o.
Proof.
  intros Hin Hu He. destruct o as [[|c s]|]; cbn in *; [contradiction|reflexivity|contradiction].
Qed.

Lemma or_string_unknown (o : option string) (names : list string) :
  ~ In (show_string o) names -> ~ In "" names -> ~ In (or_string o "") names.
Proof. intros Hin He. destruct o as [[|c s]|]; cbn in *; assumption. Qed.

Lemma func_lookup (f : string) :
  (In f functionNames -> exists d, funcDescriptions !! f = Some d /\ d <> "") /\
  (~ In f functionNames -> funcDescriptions !! f = None).
Proof.
  unfold funcDescriptions. rewrite list_to_map_lookup.
  match goal with |- context [assoc_lookup ?l f] => set (entries := l) end.
  change functionNames with (map fst entries).
  split.
  - intros H. destruct (assoc_lookup_Some entries f H) as (d & Hd & Hin).
    exists d. split; [exact Hd|].
    revert Hin. generalize d. apply List.Forall_forall.
    subst entries. cbn [map snd]. repeat constructor; discriminate.
  - apply assoc_lookup_None.
Qed.

Lemma binary_lookup (o : string) :
  (In o binaryOperators -> exists d, binaryDescriptions !! o = Some d /\ d <> "") /\
  (~ In o binaryOperators -> binaryDescriptions !! o = None).
Proof.
  unfold binaryDescriptions. rewrite list_to_map_lookup.
  match goal with |- context [assoc_lookup ?l o] => set (entries := l) end.
  change binaryOperators with (map fst entries).
  split.
  - intros H. destruct (assoc_lookup_Some entries o H) as (d & Hd & Hin).
    exists d. split; [exact Hd|].
    revert Hin. generalize d. apply List.Forall_forall.
    subst entries. cbn [map snd]. repeat constructor; discriminate.
  - apply assoc_lookup_None.
Qed.

Lemma names_plain :
  ~ In "undefined" functionNames /\ ~ In "" functionNames /\
  ~ In "undefined" binaryOperators /\ ~ In "" binaryOperators.
Proof.
  repeat split; intros H; cbn in H;
    repeat (destruct H as [H|H]; [discriminate H|]); exact H.
Qed.

Lemma explain_call_shape (ast : ParsedNode) :
  type ast = call ->
  (In (show_string (funcName ast)) functionNames ->
   exists d, funcDescriptions !! show_string (funcName ast) = Some d /\ d <> "" /\
     explainQuery ast =
       "The " +:+ show_string (funcName ast) +:+ "() function " +:+ d) /\
  (~ In (show_string (funcName ast)) functionNames ->
   ~ In (show_string (funcName ast)) inheritedNames ->
   explainQuery ast =
     "The " +:+ show_string (funcName ast) +:+ "() function applies "
       +:+ show_string (funcName ast) +:+ "()").
Proof.
  intros Hty. unfold explainQuery. rewrite Hty.
  destruct names_plain as (Hu & He & _). split.
  - intros Hin. rewrite (or_string_known _ _ Hin Hu He).
    destruct (proj1 (func_lookup _) Hin) as (d & Hd & Hne).
    exists d. rewrite (js_lookup_found _ _ _ Hd), (nonempty_or _ _ Hne). auto.
  - intros Hin Hproto. pose proof (or_string_unknown _ _ Hin He) as Hin'.
    pose proof (or_string_unknown _ _ Hproto (proj1 inherited_plain)) as Hproto'.
    rewrite (js_lookup_own _ _ Hproto'), (proj2 (func_lookup _) Hin'). reflexivity.
Qed.

Lemma explain_binary_shape (ast : ParsedNode) :
  type ast = binaryExpr ->
  (In (show_string (op ast)) binaryOperators ->
   exists d, binaryDescriptions !! show_string (op ast) = Some d /\ d <> "" /\
     explainQuery ast = "Binary operation that " +:+ d +:+ " two expressions") /\
  (~ In (show_string (op ast)) binaryOperators ->
   ~ In (show_string (op ast)) inheritedNames ->
   explainQuery ast =
     "Binary operation that " +:+ show_string (op ast) +:+ " two expressions").
Proof.
  intros Hty. unfold explainQuery. rewrite Hty.
  destruct names_plain as (_ & _ & Hu & He). split.
  - intros Hin. rewrite (or_string_known _ _ Hin Hu He).
    destruct (proj1 (binary_lookup _) Hin) as (d & Hd & Hne).
    exists d. rewrite (js_lookup_found _ _ _ Hd). destruct d; [congruence|auto].
  - intros Hin Hproto. pose proof (or_string_unknown _ _ Hin He) as Hin'.
    pose proof (or_string_unknown _ _ Hproto (proj1 inherited_plain)) as Hproto'.
    rewrite (js_lookup_own _ _ Hproto'), (proj2 (binary_lookup _) Hin'). reflexivity.
Qed.

Lemma explain_unary_shape (ast : ParsedNode) :
  type ast = unaryExpr ->
  (op ast = Some "-" -> explainQuery ast = "Unary negation operator") /\
  (op ast <> Some "-" -> explainQuery ast = "Unary plus operator").
Proof.
  intros Hty. unfold explainQuery. rewrite Hty. split.
  - intros ->. reflexivity.
  - intros H. destruct (op ast) as [o|]; [|reflexivity].
    destruct (String.eqb_spec o "-") as [->|N]; [contradiction|reflexivity].
Qed.

Lemma append_nonempty (a b : string) : a <> "" -> a +:+ b <> "".
Proof. destruct a; [congruence|]. rewrite append_cons. discriminate. Qed.

Lemma explainQuery_nonempty (ast : ParsedNode) : explainQuery ast <> "".
Proof.
  unfold explainQuery.
  destruct (type ast);
    repeat match goal with
           | |- context [if ?b then _ else _] => destruct b
           | |- context [match ?x with Some _ => _ | None => _ end] => destruct x
           end;
    try discriminate; apply append_nonempty; discriminate.
Qed.

Lemma parseDuration_formatDuration_neg ms :
  (- 2 ^ 53 < ms < 0)%Z -> parseDuration (formatDuration (Num ms)) = Num (- ms).
Proof.
  intros H. destruct ms as [|p|p]; try lia.
  assert (E : formatDuration (Num (Z.neg p)) = String "-" (decimal (Z.pos p) +:+ "ms")).
  { unfold formatDuration. cbn [js_ge Z.geb Z.compare].
    rewrite show_number_small by lia. reflexivity. }
  assert (Hu : In "ms" unit_tokens) by (simpl; tauto).
  rewrite E, parseDuration_refines; unfold spec_parseDuration, durationMatches;
    cbn [list_ascii_of_string durationMatches_go];
    change (is_digit "-") with false; cbv iota;
    rewrite (matches_number_unit p "ms" Hu);
    cbn [sumMatches fold_right]; change (unitMilliseconds "ms") with 1%Z; [|lia].
  destruct (Z.eqb_spec (Z.pos p * 1 + 0) 0); [lia|]. f_equal. lia.
Qed.

(** * Further properties of the client *)

(** X1.  [parseGroupingLabels] returns the texts of the direct children
    of kind LabelName, in their order and with repetitions; the other
    children are passed over, so there are at most as many labels as
    children. *)
Theorem parseGroupingLabels_spec (query : string) (node : SyntaxNode) :
  parseGroupingLabels query node =
    map (sliceOf query)
        (List.filter (fun c => String.eqb (typeName c) "LabelName") (childNodes node)) /\
  length (parseGroupingLabels query node) <= length (childNodes node).
Proof.
  rewrite parseGroupingLabels_eq. split; [reflexivity|].
  rewrite length_map. apply List.filter_length_le.
Qed.

(** X2.  A FunctionCall node is built into a call node with the text of
    its FunctionIdentifier child as name, or "unknown" without one, and
    with the expression children of its body, built in their order, as
    arguments; without a body there are no arguments. *)
Theorem build_FunctionCall (query : string) (node : SyntaxNode) :
  typeName node = "FunctionCall" ->
  buildAST query node =
  callNode (sliceOf query node)
    (match getChild node "FunctionIdentifier" with
     | Some funcId => sliceOf query funcId
     | None => "unknown"
     end)
    (match getChild node "FunctionCallBody" with
     | Some body => map (buildAST query) (List.filter isExpressionNode (childNodes body))
     | None => []
     end).
Proof. apply buildAST_FunctionCall. Qed.

(** The theorem at the tree of [round(x, 2)]. *)
Lemma build_FunctionCall_witness :
  typeName callTree = "FunctionCall" /\
  funcName (buildAST callQuery callTree) = Some "round" /\
  option_map (map text) (args (buildAST callQuery callTree)) = Some ["x"; "2"].
Proof.
  split; [reflexivity|].
  rewrite (build_FunctionCall callQuery callTree eq_refl).
  split; reflexivity.
Defined.

(** X3.  A BinaryExpr node is built into a binaryExpr node whose
    operands are its expression children, built in their order, however
    many there are; the operator is the text of the last child that is
    not an expression and whose kind contains "Op" or is one of the
    operator kinds, and it is empty when there is no such child. *)
Theorem build_BinaryExpr (query : string) (node : SyntaxNode) :
  typeName node = "BinaryExpr" ->
  buildAST query node =
  binaryExprNode (sliceOf query node)
    (lastSlice query (List.filter isOperatorToken (childNodes node)))
    (map (buildAST query) (List.filter isExpressionNode (childNodes node))).
Proof. apply buildAST_BinaryExpr. Qed.

(** The theorem at the tree of [a + b]. *)
Lemma build_BinaryExpr_witness :
  typeName plusTree = "BinaryExpr" /\
  op (buildAST plusQuery plusTree) = Some "+" /\
  option_map (map text) (children (buildAST plusQuery plusTree)) = Some ["a"; "b"].
Proof.
  split; [reflexivity|].
  rewrite (build_BinaryExpr plusQuery plusTree eq_refl).
  split; reflexivity.
Defined.

(** X4.  A UnaryExpr node is built into a unaryExpr node whose operator
    is the text of its last Add or Sub child, empty without one, and
    whose children are its expression children, built in their order; a
    sign child is never an operand. *)
Theorem build_UnaryExpr (query : string) (node : SyntaxNode) :
  typeName node = "UnaryExpr" ->
  buildAST query node =
    unaryExprNode (sliceOf query node)
      (lastSlice query (List.filter isSignToken (childNodes node)))
      (map (buildAST query) (List.filter isExpressionNode (childNodes node))) /\
  (forall c, isSignToken c = true -> isExpressionNode c = false).
Proof.
  intros Hk. split; [now apply buildAST_UnaryExpr|apply sign_not_expression].
Qed.

(** The theorem at a unary expression with a Sub child before its operand. *)
Lemma build_UnaryExpr_witness :
  typeName negTree = "UnaryExpr" /\
  op (buildAST negQuery negTree) = Some "-" /\
  option_map (map text) (children (buildAST negQuery negTree)) = Some ["x"].
Proof.
  split; [reflexivity|].
  rewrite (proj1 (build_UnaryExpr negQuery negTree eq_refl)).
  split; reflexivity.
Defined.

(** X5.  An AggregateExpr node is built into an aggregation node: the
    operator is the lowercased text of the AggregateOp child, or
    "unknown"; the grouping holds the LabelName texts of the modifier's
    GroupingLabels child and is empty without a modifier; [without] tells
    whether the modifier has a Without child.  Only the first child of
    the body is looked at: it is the single child when it is an
    expression, and there is no child otherwise. *)
Theorem build_AggregateExpr (query : string) (node : SyntaxNode) :
  typeName node = "AggregateExpr" ->
  buildAST query node =
    aggregationNode (sliceOf query node)
      (match getChild node "AggregateOp" with
       | Some aggOp => toLowerCase (sliceOf query aggOp)
       | None => "unknown"
       end)
      (match getChild node "AggregateModifier" with
       | Some modifier =>
           match getChild modifier "GroupingLabels" with
           | Some labels =>
               map (sliceOf query)
                   (List.filter (fun c => String.eqb (typeName c) "LabelName")
                                (childNodes labels))
           | None => []
           end
       | None => []
       end)
      (match getChild node "AggregateModifier" with
       | Some modifier => present (getChild modifier "Without")
       | None => false
       end)
      (match getChild node "FunctionCallBody" with
       | Some body =>
           map (buildAST query) (List.filter isExpressionNode (firstn 1 (childNodes body)))
       | None => []
       end) /\
  length (itemsOf (children (buildAST query node))) <= 1.
Proof.
  intros Hk. rewrite (buildAST_AggregateExpr query node Hk). split; [reflexivity|].
  cbn [children aggregationNode itemsOf].
  destruct (getChild node "FunctionCallBody"); [|simpl; lia].
  rewrite length_map. apply length_filter_firstn1.
Qed.

(** The theorem at the tree of [topk(5, x)]: the child is the literal. *)
Lemma build_AggregateExpr_witness :
  typeName topkTree = "AggregateExpr" /\
  op (buildAST topkQuery topkTree) = Some "topk" /\
  option_map (map text) (children (buildAST topkQuery topkTree)) = Some ["5"].
Proof.
  split; [reflexivity|].
  rewrite (proj1 (build_AggregateExpr topkQuery topkTree eq_refl)).
  split; reflexivity.
Defined.

(** X6.  Every node of the tree [buildAST] returns was made at some node
    of the syntax tree it was given: its text is the source text of that
    node and its type is the one of that node's kind (error for the
    wrapper kinds and for the kinds without a case). *)
Theorem ast_text_and_type (query : string) (root : SyntaxNode) (m : ParsedNode) :
  InAST m (buildAST query root) ->
  exists n, InTree n root /\
            text m = sliceOf query n /\
            type m = nodeTypeOf (typeName n).
Proof.
  intros Hm. destruct (buildAST_nodes_made query root m Hm) as (n & Tn & Ht & Hty & _).
  now exists n.
Qed.

(** The theorem at the argument of the call in [round(x, 2)]. *)
Lemma ast_text_and_type_witness :
  InAST (numberLiteralNode "2") (buildAST callQuery callTree) /\
  exists n, InTree n callTree /\
            text (numberLiteralNode "2") = sliceOf callQuery n /\
            type (numberLiteralNode "2") = nodeTypeOf (typeName n).
Proof.
  assert (H : InAST (numberLiteralNode "2") (buildAST callQuery callTree)).
  { eapply InAST_arg; [reflexivity| |apply InAST_here]. right. left. reflexivity. }
  split; [exact H|].
  exact (ast_text_and_type callQuery callTree _ H).
Defined.

(** X7.  Every node of the tree [buildAST] returns carries the fields of
    its type: an aggregation its operator, grouping, flag and at most one
    child; a call its name and arguments; a binary or unary expression
    its operator and children; a vector selector its name and matchers;
    a matrix selector its range, or neither name nor matchers; a
    subquery or parenthesis at most one child; a number its text as
    value; a string its text without the first and last character; an
    error node no children or at least two. *)
Theorem ast_shape (query : string) (root : SyntaxNode) (m : ParsedNode) :
  InAST m (buildAST query root) -> shapeOK m = true.
Proof.
  intros Hm. destruct (buildAST_nodes_made query root m Hm) as (n & _ & _ & _ & Hs).
  exact Hs.
Qed.

(** The theorem at the tree built from [sumQuery]. *)
Lemma ast_shape_witness :
  InAST (buildAST sumQuery rangeTree) (buildAST sumQuery sumTree) /\
  shapeOK (buildAST sumQuery rangeTree) = true.
Proof.
  assert (H : InAST (buildAST sumQuery rangeTree) (buildAST sumQuery sumTree)).
  { eapply InAST_child; [reflexivity|left; reflexivity|].
    eapply InAST_arg; [reflexivity|left; reflexivity|]. apply InAST_here. }
  split; [exact H|].
  exact (ast_shape sumQuery sumTree _ H).
Defined.

(** X8.  The tree [buildAST] returns is no deeper than the syntax tree it
    was built from. *)
Theorem ast_depth (query : string) (node : SyntaxNode) :
  astDepth (buildAST query node) <= height node.
Proof. apply buildAST_depth. Qed.

(** X9.  A ParenExpr or SubqueryExpr node takes its single child from
    the first direct child that is an Expr, by the name of its kind or by
    a group of its kind, and from no other child: the node built has at
    most one child, and none when no direct child is an Expr. *)
Theorem build_Paren_Subquery (query : string) (node : SyntaxNode) :
  typeName node = "ParenExpr" \/ typeName node = "SubqueryExpr" ->
  children (buildAST query node) =
    Some (match find (fun c => (String.eqb (typeName c) "Expr"
                                || existsb (String.eqb "Expr") (typeGroups c))%bool)
                     (childNodes node) with
          | Some inner => [buildAST query inner]
          | None => []
          end) /\
  length (itemsOf (children (buildAST query node))) <= 1.
Proof.
  intros [Hk|Hk].
  - rewrite (buildAST_ParenExpr query node Hk). unfold getChild, typeIs.
    cbn [children parenExprNode itemsOf]. split; [reflexivity|].
    destruct (find _ _); simpl; lia.
  - rewrite (buildAST_SubqueryExpr query node Hk). unfold getChild, typeIs.
    cbn [children subqueryNode itemsOf]. split; [reflexivity|].
    destruct (find _ _); simpl; lia.
Qed.

(** The theorem at the tree of [(up)]: the selector is in the group
    Expr, and is the child. *)
Lemma build_Paren_Subquery_witness :
  (typeName parenTree = "ParenExpr" \/ typeName parenTree = "SubqueryExpr") /\
  option_map (map text) (children (buildAST parenQuery parenTree)) = Some ["up"].
Proof.
  split; [left; reflexivity|].
  rewrite (proj1 (build_Paren_Subquery parenQuery parenTree (or_introl eq_refl))).
  reflexivity.
Defined.

(** X10.  A positive integer printed in decimal and followed by one unit
    is read by [parseDuration] as that integer times the milliseconds of
    the unit, as long as the product is below [2 ^ 53]. *)
Theorem parseDuration_integer_unit (k : Z) (u : string) :
  (0 < k)%Z -> In u unit_tokens -> (k * unitMilliseconds u < 2 ^ 53)%Z ->
  parseDuration (decimal k +:+ u) = Num (k * unitMilliseconds u).
Proof. apply parseDuration_number_unit. Qed.

(** The theorem at ninety seconds. *)
Lemma parseDuration_integer_unit_witness :
  (0 < 90)%Z /\ In "s" unit_tokens /\ (90 * unitMilliseconds "s" < 2 ^ 53)%Z /\
  parseDuration "90s" = Num 90000.
Proof.
  split; [reflexivity|]. split; [right; left; reflexivity|]. split; [reflexivity|].
  refine (parseDuration_integer_unit 90 "s" _ _ _);
    [reflexivity|right; left; reflexivity|reflexivity].
Defined.

(** X11.  Reading back what [formatDuration] prints for a positive
    integer below [2 ^ 53] gives the value rounded down to a whole number
    of the unit printed: never more than the value, less than one unit
    below it, and the value itself when it is a whole number of that
    unit.  Far beyond that bound the number is printed with an exponent,
    and only the digits before the unit are read back. *)
Theorem formatDuration_read_back (ms : Z) :
  (0 < ms < 2 ^ 53)%Z ->
  (exists v : Z,
     parseDuration (formatDuration (Num ms)) = Num v /\
     v = (ms / formatUnit ms * formatUnit ms)%Z /\
     (ms - formatUnit ms < v <= ms)%Z /\
     ((ms mod formatUnit ms = 0)%Z -> v = ms)) /\
  formatDuration (fl (10 ^ 30)) = "1.1574074074074075e+22d" /\
  parseDuration "1.1574074074074075e+22d" = Num 1900800000.
Proof.
  intros H. split; [|split; vm_compute; reflexivity].
  eexists. split; [apply (parseDuration_formatDuration ms H)|].
  pose proof (formatUnit_bounds ms ltac:(lia)) as Hb.
  pose proof (Z.div_mod ms (formatUnit ms) ltac:(lia)) as Hdm.
  pose proof (Z.mod_pos_bound ms (formatUnit ms) ltac:(lia)) as Hm.
  split; [reflexivity|]. split; [nia|]. intros Hz. nia.
Qed.

(** The theorem at ninety seconds, printed as one minute. *)
Lemma formatDuration_read_back_witness :
  (0 < 90000 < 2 ^ 53)%Z /\ parseDuration (formatDuration 90000) = Num 60000.
Proof.
  split; [split; reflexivity|].
  destruct (proj1 (formatDuration_read_back 90000 (conj eq_refl eq_refl)))
    as (v & Hv & -> & _).
  exact Hv.
Defined.

(** X12.  For a negative integer above [- 2 ^ 53] [formatDuration]
    prints the value with "ms", and [parseDuration] reads it back without
    the sign; for 0 it prints "0ms", which is read back as the default
    300000.  A value as low as [-1e21] is printed with an exponent, of
    which the digits are read back. *)
Theorem formatDuration_read_back_nonpositive (ms : Z) :
  (- 2 ^ 53 < ms < 0)%Z ->
  formatDuration (Num ms) = decimal ms +:+ "ms" /\
  parseDuration (formatDuration (Num ms)) = Num (- ms) /\
  formatDuration 0 = "0ms" /\
  parseDuration (formatDuration 0) = Num 300000 /\
  formatDuration (fl (- 10 ^ 21)) = "-1e+21ms" /\
  parseDuration "-1e+21ms" = Num 21.
Proof.
  intros H. split; [|split; [now apply parseDuration_formatDuration_neg|]].
  - destruct ms as [|p|p]; try lia. unfold formatDuration. cbn [js_ge Z.geb Z.compare].
    now rewrite show_number_small by lia.
  - repeat split; vm_compute; reflexivity.
Qed.

(** The theorem at minus five milliseconds. *)
Lemma formatDuration_read_back_nonpositive_witness :
  (- 2 ^ 53 < -5 < 0)%Z /\ formatDuration (-5) = "-5ms" /\
  parseDuration (formatDuration (-5)) = Num 5.
Proof.
  split; [split; reflexivity|].
  destruct (formatDuration_read_back_nonpositive (-5) (conj eq_refl eq_refl))
    as (Hf & Hp & _).
  split; [exact Hf|exact Hp].
Defined.

(** X13.  [parseDuration] never returns 0, a negative number or [NaN]:
    its result is a positive integer or [Infinity]; a text whose matches
    all have the integer 0, such as "0s", is read as the default 300000. *)
Theorem parseDuration_positive (s : string) :
  positive (parseDuration s) /\
  ((forall n u, In (n, u) (durationMatches s) -> n = 0%Z) ->
   parseDuration s = Num 300000) /\
  parseDuration "0s" = Num 300000.
Proof.
  split; [apply parseDuration_pos|]. split; [|reflexivity].
  intros H. rewrite parseDuration_refines by (rewrite (sumMatches_zero _ H); reflexivity).
  unfold spec_parseDuration. now rewrite (sumMatches_zero _ H).
Qed.

(** X14.  [explainQuery] reads the type, operator, name, matchers,
    range, grouping, flag, function name and value of the node it is
    given, and nothing else: two nodes that agree on these are explained
    alike, whatever their text, children, arguments and offset. *)
Theorem explainQuery_frame (a b : ParsedNode) :
  type a = type b -> op a = op b -> name a = name b -> matchers a = matchers b ->
  range a = range b -> grouping a = grouping b -> without a = without b ->
  funcName a = funcName b -> value a = value b ->
  explainQuery a = explainQuery b.
Proof.
  intros Hty Hop Hn Hm Hr Hg Hw Hf Hv. unfold explainQuery.
  now rewrite Hty, Hop, Hn, Hm, Hr, Hg, Hw, Hf, Hv.
Qed.

(** The theorem at the aggregation of [sumQuery] and its bare copy. *)
Lemma explainQuery_frame_witness :
  explainQuery (buildAST sumQuery sumTree) =
  explainQuery (aggregationNode "" "sum" ["status"] false []).
Proof.
  apply explainQuery_frame; reflexivity.
Defined.

(** X15.  A call node is explained as "The <name>() function" followed
    by the entry of the function table for one of the forty names in it,
    and by "applies <name>()" for any other name that is not an inherited
    property name; the name is printed as "undefined" when the node has
    none. *)
Theorem explain_call (ast : ParsedNode) :
  type ast = call ->
  (In (show_string (funcName ast)) functionNames ->
   exists d, funcDescriptions !! show_string (funcName ast) = Some d /\ d <> "" /\
     explainQuery ast =
       "The " +:+ show_string (funcName ast) +:+ "() function " +:+ d) /\
  (~ In (show_string (funcName ast)) functionNames ->
   ~ In (show_string (funcName ast)) inheritedNames ->
   explainQuery ast =
     "The " +:+ show_string (funcName ast) +:+ "() function applies "
       +:+ show_string (funcName ast) +:+ "()").
Proof.
  intros Hty. exact (explain_call_shape ast Hty).
Qed.

(** The theorem at the call built from [round(x, 2)]. *)
Lemma explain_call_witness :
  type (buildAST callQuery callTree) = call /\
  exists d, funcDescriptions !! "round" = Some d /\ d <> "" /\
    explainQuery (buildAST callQuery callTree) = "The round() function " +:+ d.
Proof.
  split; [reflexivity|].
  refine (proj1 (explain_call (buildAST callQuery callTree) eq_refl) _).
  cbn. tauto.
Defined.

(** X16.  A binaryExpr node is explained as "Binary operation that",
    the entry of the operator table and "two expressions" for one of the
    fifteen operators in it; for any other operator that is not an
    inherited property name the operator text itself stands in place of
    the entry, "undefined" when the node has none. *)
Theorem explain_binary (ast : ParsedNode) :
  type ast = binaryExpr ->
  (In (show_string (op ast)) binaryOperators ->
   exists d, binaryDescriptions !! show_string (op ast) = Some d /\ d <> "" /\
     explainQuery ast = "Binary operation that " +:+ d +:+ " two expressions") /\
  (~ In (show_string (op ast)) binaryOperators ->
   ~ In (show_string (op ast)) inheritedNames ->
   explainQuery ast =
     "Binary operation that " +:+ show_string (op ast) +:+ " two expressions").
Proof.
  intros Hty. exact (explain_binary_shape ast Hty).
Qed.

(** The theorem at the node built from [a + b]. *)
Lemma explain_binary_witness :
  type (buildAST plusQuery plusTree) = binaryExpr /\
  exists d, binaryDescriptions !! "+" = Some d /\ d <> "" /\
    explainQuery (buildAST plusQuery plusTree) =
      "Binary operation that " +:+ d +:+ " two expressions".
Proof.
  split; [reflexivity|].
  refine (proj1 (explain_binary (buildAST plusQuery plusTree) eq_refl) _).
  cbn. tauto.
Defined.

(** X17.  A unaryExpr node is explained as a negation when its operator
    is "-", and as a plus in every other case, an absent or empty
    operator included. *)
Theorem explain_unary (ast : ParsedNode) :
  type ast = unaryExpr ->
  (op ast = Some "-" -> explainQuery ast = "Unary negation operator") /\
  (op ast <> Some "-" -> explainQuery ast = "Unary plus operator").
Proof. apply explain_unary_shape. Qed.

(** The theorem at the node built from a unary expression with a Sub child. *)
Lemma explain_unary_witness :
  type (buildAST negQuery negTree) = unaryExpr /\
  explainQuery (buildAST negQuery negTree) = "Unary negation operator".
Proof.
  split; [reflexivity|].
  exact (proj1 (explain_unary (buildAST negQuery negTree) eq_refl) eq_refl).
Defined.

(** X18.  [explainQuery] never returns the empty text. *)
Theorem explainQuery_not_empty (ast : ParsedNode) : explainQuery ast <> "".
Proof. apply explainQuery_nonempty. Qed.

(** X19.  When the producer returns a tree, [parseQuery] succeeds exactly
    when no node of the tree is flagged as an error and the wrapper has a
    first child.  The result then carries the tree built from that child
    and no message, and the text of every node of it is the source text
    of a node of the producer's tree. *)
Theorem parseQuery_success (parser_parse : string -> Completion SyntaxNode)
    (query : string) (tree : SyntaxNode) :
  parser_parse query = Normal tree ->
  exists r,
    parseQuery parser_parse query = Normal r /\
    (success r = true <->
     (forall n, InTree n tree -> typeIsError n = false) /\ firstChild tree <> None) /\
    (success r = true ->
     exists node,
       firstChild tree = Some node /\
       r = mkParseResult true (Some (buildAST query node)) None /\
       forall m, InAST m (buildAST query node) ->
                 exists n, InTree n tree /\ text m = sliceOf query n).
Proof.
  intros Hp. unfold parseQuery, try_catch, bind. rewrite Hp.
  destruct (iterate checkError tree false) eqn:Herr.
  - eexists. split; [reflexivity|]. split; [|discriminate].
    split; [discriminate|]. intros [Hok _].
    apply iterate_checkError in Herr as [Herr|(n & Tn & He)]; [discriminate|].
    now rewrite (Hok n Tn) in He.
  - assert (Hok : forall n, InTree n tree -> typeIsError n = false).
    { intros n Tn. destruct (typeIsError n) eqn:En; [|reflexivity].
      assert (H : iterate checkError tree false = true)
        by (apply iterate_checkError; right; now exists n).
      congruence. }
    destruct (firstChild tree) as [node|] eqn:Ef.
    + eexists. split; [reflexivity|]. split.
      * split; [intros _; split; [exact Hok|discriminate]|reflexivity].
      * intros _. exists node. split; [reflexivity|]. split; [reflexivity|].
        intros m Hm. destruct (buildAST_nodes_made query node m Hm) as (n & Tn & Ht & _).
        exists n. split; [|exact Ht].
        destruct (child_below _ _ (firstChild_In _ _ Ef)) as [Tc _].
        eapply InTree_trans; eauto.
    + eexists. split; [reflexivity|]. split; [|discriminate].
      split; [discriminate|]. intros [_ H]. congruence.
Qed.

(** The theorem at the tree of [sumQuery]. *)
Lemma parseQuery_success_witness :
  exists r,
    parseQuery (fun _ => Normal sumTree) sumQuery = Normal r /\ success r = true.
Proof.
  destruct (parseQuery_success (fun _ => Normal sumTree) sumQuery sumTree eq_refl)
    as (r & Hr & _ & _).
  exists r. split; [exact Hr|].
  revert Hr. intros [= <-]. reflexivity.
Defined.

(** X20.  [parseLabelMatchers] returns at most one matcher for each
    direct child of the container, and none for a container that has no
    child of a matcher kind. *)
Theorem parseLabelMatchers_bound (query : string) (node : SyntaxNode) :
  length (parseLabelMatchers query node) <= length (childNodes node) /\
  ((forall c, In c (childNodes node) -> includes matcherKinds (typeName c) = false) ->
   parseLabelMatchers query node = []).
Proof.
  rewrite parseLabelMatchers_refines. unfold spec_labelMatchers.
  induction (childNodes node) as [|c l [IH1 IH2]]; [split; [simpl; lia|reflexivity]|].
  cbn [flat_map length]. split.
  - rewrite length_app.
    assert (length (spec_matcherOf query c) <= 1); [|lia].
    unfold spec_matcherOf.
    destruct (includes matcherKinds (typeName c)); [|simpl; lia].
    destruct (getChild c "LabelName"); [|simpl; lia].
    destruct (getChild c "StringLiteral"); simpl; lia.
  - intros H. rewrite IH2 by (intros; apply H; now right).
    unfold spec_matcherOf. rewrite (H c) by now left. reflexivity.
Qed.
